(** * Ranking and allocation engine of NPSS (rankingService)

    Shallow embedding of [calculateTotal], [tieBreaker] and [rankStudents]
    from the ranking service.  JavaScript numbers used as scores and quotas
    are modelled as integers [Z]; the one place where an IEEE value other
    than an integer can arise from well-typed objects, a missing score key
    ([undefined]) flowing into [+] or [-], is modelled with an explicit
    [NaN].  Plain JS objects used as dictionaries ([scores], [quotaUsage],
    [planQuotas]) are stdpp [gmap string _] of their own properties; the
    writes of [rankStudents] go through [js_set], which drops the one key
    such an object does not store, "__proto__". *)

From Stdlib Require Import ZArith Lia List Permutation Sorted.
From stdpp Require Import base gmap strings list fin_maps.
Import ListNotations.

Open Scope string_scope.
Open Scope list_scope.
Open Scope Z_scope.

(** ** Data model (types.ts) *)

Record Student := mkStudent {
  id : string;
  title : string;
  firstName : string;
  lastName : string;
  scores : gmap string Z;
  preferredStreams : list string
}.

Record StudyPlan := mkPlan {
  plan_id : string;
  name : string;
  quota : Z
}.

(** A JavaScript number as it arises here: an integer or NaN. *)
Inductive jsnum := JN (z : Z) | JNaN.

(** [{ ...s, totalScore, rank, qualifiedStream }]: the spread copies every
    field of the student; [rs_base] holds them. *)
Record RankedStudent := mkRanked {
  rs_base : Student;
  totalScore : jsnum;
  rank : nat;
  qualifiedStream : option string
}.

(** ** JavaScript operators on score values *)

(** [student.scores.k]: [undefined] is [None]. *)
Definition score (s : Student) (k : string) : option Z := scores s !! k.

(** ToNumber: [undefined] becomes NaN. *)
Definition to_num (v : option Z) : jsnum :=
  match v with Some z => JN z | None => JNaN end.

Definition js_add (a b : jsnum) : jsnum :=
  match a, b with JN x, JN y => JN (x + y) | _, _ => JNaN end.

Definition js_sub (a b : jsnum) : jsnum :=
  match a, b with JN x, JN y => JN (x - y) | _, _ => JNaN end.

(** [a !== b] on numbers: NaN differs from everything. *)
Definition js_neq_num (a b : jsnum) : bool :=
  match a, b with JN x, JN y => negb (x =? y) | _, _ => true end.

(** [a !== b] on the raw property values ([undefined] or a number). *)
Definition js_neq_val (a b : option Z) : bool :=
  match a, b with
  | Some x, Some y => negb (x =? y)
  | None, None => false
  | _, _ => true
  end.

(** [b - a] on raw property values. *)
Definition js_sub_val (b a : option Z) : jsnum := js_sub (to_num b) (to_num a).

(** ** calculateTotal *)

(** [const { math, science, thai, english, social } = student.scores;
     return math + science + thai + english + social;]
    The [subjects] parameter is accepted and not used. *)
Definition calculateTotal (student : Student) (subjects : option (list string)) : jsnum :=
  js_add (js_add (js_add (js_add (to_num (score student "math"))
                                 (to_num (score student "science")))
                         (to_num (score student "thai")))
                 (to_num (score student "english")))
         (to_num (score student "social")).

(** ** tieBreaker: negative when [a] should come before [b] *)

Definition tieBreaker (a b : Student) : jsnum :=
  if js_neq_val (score a "science") (score b "science")
  then js_sub_val (score b "science") (score a "science") else
  if js_neq_val (score a "math") (score b "math")
  then js_sub_val (score b "math") (score a "math") else
  if js_neq_val (score a "english") (score b "english")
  then js_sub_val (score b "english") (score a "english") else
  if js_neq_val (score a "thai") (score b "thai")
  then js_sub_val (score b "thai") (score a "thai") else
  js_sub_val (score b "social") (score a "social").

(** ** rankStudents *)

(** Step 1: [students.map(s => ({...s, totalScore: calculateTotal(s),
    rank: 0, qualifiedStream: null}))]. *)
Definition process (s : Student) : RankedStudent :=
  mkRanked s (calculateTotal s None) 0 None.

(** The comparator passed to [processed.sort]. *)
Definition compare_ranked (a b : RankedStudent) : jsnum :=
  if js_neq_num (totalScore b) (totalScore a)
  then js_sub (totalScore b) (totalScore a)
  else tieBreaker (rs_base a) (rs_base b).

(** SortCompare reads the comparator's result as a sign; NaN counts as 0.
    [before a b] is "the comparator puts [a] strictly before [b]". *)
Definition sort_sign_negative (v : jsnum) : bool :=
  match v with JN z => z <? 0 | JNaN => false end.

Definition before (a b : RankedStudent) : bool :=
  sort_sign_negative (compare_ranked a b).

(** [Array.prototype.sort] as V8 runs it (third_party/v8/builtins/array-sort.tq,
    a TimSort).  [lt x y] is [SortCompare(x, y) < 0]. *)
Section V8Sort.
Context {A : Type} (lt : A -> A -> bool).

(** The loops of [CountAndMakeRun] after its first pair: how far the run
    continues after [prev], non-descending ... *)
Fixpoint run_ascending (prev : A) (l : list A) : nat :=
  match l with
  | [] => 0
  | x :: rest => if lt x prev then 0 else S (run_ascending x rest)
  end.

(** ... or strictly descending. *)
Fixpoint run_descending (prev : A) (l : list A) : nat :=
  match l with
  | [] => 0
  | x :: rest => if lt x prev then S (run_descending x rest) else 0
  end.

(** [CountAndMakeRun(low, high)]: the length of the run at the start of the
    array; a strictly descending run is reversed in place. *)
Definition count_and_make_run (l : list A) : nat * list A :=
  match l with
  | x0 :: x1 :: rest =>
      if lt x1 x0
      then let n := (2 + run_descending x1 rest)%nat in (n, rev (take n l) ++ drop n l)
      else ((2 + run_ascending x1 rest)%nat, l)
  | _ => (1%nat, l)
  end.

(** The search loop of [BinaryInsertionSort]:
    [while (left < right) { mid = left + ((right - left) >> 1);
     if (Compare(pivot, a[mid]) < 0) right = mid; else left = mid + 1; }].
    [fuel] bounds the iterations; [right - left] shrinks at each one. *)
Fixpoint binary_search (fuel : nat) (pivot : A) (run : list A) (left right : nat) : nat :=
  match fuel with
  | O => left
  | S fuel' =>
      if (left <? right)%nat then
        let mid := (left + (right - left) / 2)%nat in
        match run !! mid with
        | Some m =>
            if lt pivot m then binary_search fuel' pivot run left mid
            else binary_search fuel' pivot run (S mid) right
        | None => left
        end
      else left
  end.

(** The elements from [left] up move one place right and the pivot goes
    to [left]. *)
Definition binary_insert (run : list A) (pivot : A) : list A :=
  let left := binary_search (length run) pivot run 0 (length run) in
  take left run ++ pivot :: drop left run.

(** [ArrayTimSortImpl] for fewer than 64 elements: [ComputeMinRunLength]
    is then the length itself, so the run found at the start is extended
    by [BinaryInsertionSort] over the whole array and no merge happens.
    Arrays of length below 2 are returned untouched. *)
Definition v8_sort_short (l : list A) : list A :=
  if (length l <? 2)%nat then l else
  let '(n, l1) := count_and_make_run l in
  fold_left binary_insert (drop n l1) (take n l1).
End V8Sort.

(** A stable insertion sort driven by the comparator: each element is
    inserted in front of the first element it must precede.  For a
    consistent comparator every stable sort gives this order. *)
Fixpoint insert_sorted (x : RankedStudent) (l : list RankedStudent) : list RankedStudent :=
  match l with
  | [] => [x]
  | y :: ys => if before x y then x :: y :: ys else y :: insert_sorted x ys
  end.

Definition stable_sort (l : list RankedStudent) : list RankedStudent :=
  fold_left (fun acc x => insert_sorted x acc) l [].

(** [processed.sort(...)]: V8's algorithm below 64 elements.  From 64
    elements on TimSort merges runs of at least 32; these merges are not
    modelled, [stable_sort] stands for them, which is the order V8 produces
    whenever the comparator is consistent. *)
Definition js_sort (l : list RankedStudent) : list RankedStudent :=
  if (length l <? 64)%nat then v8_sort_short before l else stable_sort l.

(** Step 3: [processed.map((s, index) => ({...s, rank: index + 1}))]. *)
Fixpoint assign_rank_from (k : nat) (l : list RankedStudent) : list RankedStudent :=
  match l with
  | [] => []
  | s :: rest => mkRanked (rs_base s) (totalScore s) (S k) (qualifiedStream s)
                  :: assign_rank_from (S k) rest
  end.

Definition assign_rank (l : list RankedStudent) : list RankedStudent :=
  assign_rank_from 0 l.

(** Stages 1 to 3: the ranked sequence fed to the allocator. *)
Definition ranked (students : list Student) : list RankedStudent :=
  assign_rank (js_sort (map process students)).

(** [obj[k] = v] with a number [v] on an object created by [{}].  The key
    "__proto__" names the accessor inherited from [Object.prototype], whose
    setter ignores a value that is not an object: that assignment stores
    nothing.  Every other key gets an own property. *)
Definition js_set (k : string) (v : Z) (m : gmap string Z) : gmap string Z :=
  if bool_decide (k = "__proto__") then m else <[k := v]> m.

(** Step 4: [plans.forEach(p => { quotaUsage[p.name] = 0; })] and
    [plans.forEach(p => planQuotas[p.name] = p.quota)]. *)
Definition initQuotaUsage (plans : list StudyPlan) : gmap string Z :=
  fold_left (fun m p => js_set (name p) 0 m) plans ∅.

Definition planQuotasOf (plans : list StudyPlan) : gmap string Z :=
  fold_left (fun m p => js_set (name p) (quota p) m) plans ∅.

Section Allocation.
Variable planQuotas : gmap string Z.

(** The [for (const planName of student.preferredStreams)] loop, with the
    [quotaUsage] object threaded through.  A lookup is [None] where the
    object has no own property of that name.  There the code reads either
    [undefined] (the test [!== undefined] fails) or, for a name such as
    "__proto__" or "toString", the same inherited object or function from
    both dictionaries, and [currentUsage < planQuotas[planName]] compares
    two equal strings or NaN: it is false and the loop moves on, as it
    does here. *)
Fixpoint pick (prefs : list string) (quotaUsage : gmap string Z)
  : option string * gmap string Z :=
  match prefs with
  | [] => (None, quotaUsage)
  | planName :: rest =>
      match planQuotas !! planName with
      | Some q =>
          match quotaUsage !! planName with
          | Some currentUsage =>
              if currentUsage <? q
              then (Some planName, <[planName := currentUsage + 1]> quotaUsage)
              else pick rest quotaUsage
          | None => pick rest quotaUsage
          end
      | None => pick rest quotaUsage
      end
  end.

(** [processed.map(student => ...)]: the closure updates [quotaUsage] as
    the students are visited in rank order.  Returns the mapped array and
    the final [quotaUsage]. *)
Fixpoint allocate (quotaUsage : gmap string Z) (l : list RankedStudent)
  : list RankedStudent * gmap string Z :=
  match l with
  | [] => ([], quotaUsage)
  | student :: rest =>
      let '(assignedPlan, u1) := pick (preferredStreams (rs_base student)) quotaUsage in
      let '(out, u2) := allocate u1 rest in
      (mkRanked (rs_base student) (totalScore student) (rank student) assignedPlan :: out, u2)
  end.
End Allocation.

Definition rankStudents (students : list Student) (plans : list StudyPlan) : list RankedStudent :=
  fst (allocate (planQuotasOf plans) (initQuotaUsage plans) (ranked students)).

(** ** Derived notions used in the statements *)

(** Number of students in [l] whose [qualifiedStream] is [n]. *)
Definition count_assigned (n : string) (l : list RankedStudent) : nat :=
  length (filter (fun r => qualifiedStream r = Some n) l).

(** Usage of the [quotaUsage] object at the moment the student at position
    [i] of the ranked sequence is processed. *)
Definition usage_at (plans : list StudyPlan) (students : list Student) (i : nat)
  : gmap string Z :=
  snd (allocate (planQuotasOf plans) (initQuotaUsage plans) (take i (ranked students))).

(** The five subject keys the code reads. *)
Definition subject_keys : list string := ["math"; "science"; "thai"; "english"; "social"].

(** A student record as typed: every key the code reads is present. *)
Definition has_all_scores (s : Student) : Prop :=
  Forall (fun k => is_Some (score s k)) subject_keys.

(** What [allocate] keeps of each student: everything but the stream. *)
Definition strip (r : RankedStudent) : RankedStudent :=
  mkRanked (rs_base r) (totalScore r) (rank r) None.

(** ** The spec's reading of the preference scan *)

(** Spec wording (4.3): the first preference, in the student's own order,
    that names a configured track whose remaining capacity (its quota
    minus the students already placed there) is positive. *)
Definition first_open_preference (quotas : gmap string Z) (placed : string -> Z)
    (prefs : list string) : option string :=
  find (fun n => match quotas !! n with Some q => 0 <? q - placed n | None => false end) prefs.

(** Spec wording (4.3): the quota of each configured track, the tracks
    being the plans' names; a later definition of a name replaces an
    earlier one. *)
Definition configured_quotas (plans : list StudyPlan) : gmap string Z :=
  fold_left (fun m p => <[name p := quota p]> m) plans ∅.

(** Lexicographic "greater than" on score vectors. *)
Fixpoint lex_gt (a b : list Z) : bool :=
  match a, b with
  | x :: xs, y :: ys => (y <? x) || ((x =? y) && lex_gt xs ys)
  | _, _ => false
  end.

Definition num_value (v : jsnum) : Z := match v with JN z => z | JNaN => 0 end.

Definition score0 (s : Student) (k : string) : Z := default 0 (score s k).

(** The keys the spec orders by, in its priority order. *)
Definition spec_key (r : RankedStudent) : list Z :=
  [num_value (totalScore r); score0 (rs_base r) "science"; score0 (rs_base r) "math";
   score0 (rs_base r) "english"; score0 (rs_base r) "thai"; score0 (rs_base r) "social"].


(** A ranked record whose total is the one [calculateTotal] computes and
    whose student has every score the code reads. *)
Definition ranked_ok (r : RankedStudent) : Prop :=
  totalScore r = calculateTotal (rs_base r) None /\ has_all_scores (rs_base r).

(** The part of a record the rank and allocation stages pass through. *)
Definition core (r : RankedStudent) : Student * jsnum := (rs_base r, totalScore r).

(** Spec wording (4.1): the sum of the student's scores over the configured
    subject keys, a missing key counting 0. *)
Definition configured_total (subjects : list string) (s : Student) : Z :=
  fold_right (fun k acc => score0 s k + acc) 0 subjects.

(** ** Sample inputs *)

Definition five_scores (math science thai english social : Z) : gmap string Z :=
  <["math" := math]> (<["science" := science]> (<["thai" := thai]>
    (<["english" := english]> (<["social" := social]> ∅)))).

Definition pupil (sid : string) (sc : gmap string Z) (prefs : list string) : Student :=
  mkStudent sid "" "" "" sc prefs.

(** Scenario 1 of the spec: science tie, math decides. *)
Definition s1 : Student := pupil "S1" (five_scores 80 90 0 0 0) ["X"].
Definition s2 : Student := pupil "S2" (five_scores 70 90 0 0 0) ["X"].
Definition planX1 : StudyPlan := mkPlan "1" "X" 1.
Definition planY0 : StudyPlan := mkPlan "2" "Y" 0.
Definition planX5 : StudyPlan := mkPlan "3" "X" 5.

(** A student with a sixth configured subject (added in the settings page,
    id [SUBJ-...]) and one whose record lacks the social score. *)
Definition subjects6 : list string := subject_keys ++ ["SUBJ-1"].
Definition s6 : Student := pupil "S6" (<["SUBJ-1" := 10]> (five_scores 10 10 10 10 10)) [].
Definition subjects4 : list string := ["math"; "science"; "thai"; "english"].
Definition s4 : Student := pupil "S4" (delete "social" (five_scores 10 10 10 10 10)) [].

(** Scenario 4 of the spec: the only preference names no plan. *)
Definition sZ : Student := pupil "S7" (five_scores 60 60 60 60 60) ["Z"].




(** Three students with identical scores. *)
Definition tA : Student := pupil "A" (five_scores 50 50 50 50 50) ["X"].

(** ** The JavaScript heap seen by [rankStudents]

    A second, operational reading of [rankStudents] over an explicit heap
    of objects, used for the frame property: the input array, its student
    objects and the plans list live in the heap; the code allocates its
    arrays, records and the two dictionaries, sorts [processed] in place
    and updates [quotaUsage] in place. *)
Module Heap.

Definition loc := nat.

Inductive val :=
  | VStudent (s : Student)
  | VRanked (r : RankedStudent)
  | VPlan (p : StudyPlan)
  | VArray (ls : list loc)
  | VDict (d : gmap string Z).

Record heap := mkHeap { mem : gmap loc val; next : loc }.

(** Every object of the heap sits below the allocation pointer. *)
Definition heap_wf (h : heap) : Prop := forall k, (next h <= k)%nat -> mem h !! k = None.

(** State and failure: a read of the wrong kind of object is a crash. *)
Definition M (A : Type) : Type := heap -> option (A * heap).

#[global] Instance M_ret : MRet M := fun A x h => Some (x, h).
#[global] Instance M_bind : MBind M := fun A B f m h =>
  match m h with Some (x, h1) => f x h1 | None => None end.

Definition crash {A} : M A := fun _ => None.

Definition alloc (v : val) : M loc := fun h =>
  Some (next h, mkHeap (<[next h := v]> (mem h)) (S (next h))).

Definition read (l : loc) : M val := fun h =>
  match mem h !! l with Some v => Some (v, h) | None => None end.

Definition write (l : loc) (v : val) : M unit := fun h =>
  match mem h !! l with
  | Some _ => Some (tt, mkHeap (<[l := v]> (mem h)) (next h))
  | None => None
  end.

Definition read_array (l : loc) : M (list loc) :=
  v ← read l; match v with VArray ls => mret ls | _ => crash end.
Definition read_student (l : loc) : M Student :=
  v ← read l; match v with VStudent s => mret s | _ => crash end.
Definition read_ranked (l : loc) : M RankedStudent :=
  v ← read l; match v with VRanked r => mret r | _ => crash end.
Definition read_plan (l : loc) : M StudyPlan :=
  v ← read l; match v with VPlan p => mret p | _ => crash end.
Definition read_dict (l : loc) : M (gmap string Z) :=
  v ← read l; match v with VDict d => mret d | _ => crash end.

Fixpoint mapM {A B} (f : A -> M B) (l : list A) : M (list B) :=
  match l with
  | [] => mret []
  | x :: xs => y ← f x; ys ← mapM f xs; mret (y :: ys)
  end.

(** [arr.map((x, index) => ...)]. *)
Fixpoint mapiM {A B} (f : nat -> A -> M B) (k : nat) (l : list A) : M (list B) :=
  match l with
  | [] => mret []
  | x :: xs => y ← f k x; ys ← mapiM f (S k) xs; mret (y :: ys)
  end.

(** The in-place sort orders the element references by the comparator on
    the objects they point to (the same algorithm as [js_sort]). *)
Fixpoint insert_ref (x : loc * RankedStudent) (l : list (loc * RankedStudent))
  : list (loc * RankedStudent) :=
  match l with
  | [] => [x]
  | y :: ys => if before (snd x) (snd y) then x :: y :: ys else y :: insert_ref x ys
  end.

Definition sort_refs (l : list (loc * RankedStudent)) : list (loc * RankedStudent) :=
  if (length l <? 64)%nat then v8_sort_short (fun x y => before (snd x) (snd y)) l
  else fold_left (fun acc x => insert_ref x acc) l [].

(** The preference loop, reading [planQuotas] and updating [quotaUsage]. *)
Fixpoint pick_h (quotaUsage planQuotas : loc) (prefs : list string) : M (option string) :=
  match prefs with
  | [] => mret None
  | planName :: rest =>
      pq ← read_dict planQuotas;
      match pq !! planName with
      | Some q =>
          qu ← read_dict quotaUsage;
          match qu !! planName with
          | Some currentUsage =>
              if currentUsage <? q
              then write quotaUsage (VDict (<[planName := currentUsage + 1]> qu));;
                   mret (Some planName)
              else pick_h quotaUsage planQuotas rest
          | None => pick_h quotaUsage planQuotas rest
          end
      | None => pick_h quotaUsage planQuotas rest
      end
  end.

Definition rankStudents_h (students plans : loc) : M loc :=
  (* 1. Calculate totals *)
  sls ← read_array students;
  objs ← mapM (fun l => s ← read_student l; alloc (VRanked (process s))) sls;
  processed ← alloc (VArray objs);
  (* 2. Global sort, in place *)
  ls ← read_array processed;
  rs ← mapM read_ranked ls;
  write processed (VArray (map fst (sort_refs (zip ls rs))));;
  (* 3. Assign global rank *)
  ls2 ← read_array processed;
  objs2 ← mapiM (fun index l => r ← read_ranked l;
            alloc (VRanked (mkRanked (rs_base r) (totalScore r) (S index) (qualifiedStream r))))
            0 ls2;
  processed2 ← alloc (VArray objs2);
  (* 4. Quota usage and quota map *)
  quotaUsage ← alloc (VDict ∅);
  pls ← read_array plans;
  mapM (fun pl => p ← read_plan pl; d ← read_dict quotaUsage;
                  write quotaUsage (VDict (js_set (name p) 0 d))) pls;;
  planQuotas ← alloc (VDict ∅);
  mapM (fun pl => p ← read_plan pl; d ← read_dict planQuotas;
                  write planQuotas (VDict (js_set (name p) (quota p) d))) pls;;
  (* 5. Allocation *)
  ls3 ← read_array processed2;
  out ← mapM (fun l => student ← read_ranked l;
                assignedPlan ← pick_h quotaUsage planQuotas (preferredStreams (rs_base student));
                alloc (VRanked (mkRanked (rs_base student) (totalScore student)
                                         (rank student) assignedPlan))) ls3;
  alloc (VArray out).

(** [m] leaves every object below [n] alone, never moves the allocation
    pointer back, and returns a value satisfying [Q]. *)
Definition frames {A} (n : loc) (m : M A) (Q : A -> Prop) : Prop :=
  forall h x h', (n <= next h)%nat -> m h = Some (x, h') ->
    (forall k, (k < n)%nat -> mem h' !! k = mem h !! k) /\ (next h <= next h')%nat /\ Q x.

(** A small sample heap: two students and two plans. *)
Definition sample_heap : heap :=
  mkHeap (<[0%nat := VStudent s2]> (<[1%nat := VStudent s1]> (<[2%nat := VArray [0; 1]%nat]>
           (<[3%nat := VPlan planX1]> (<[4%nat := VPlan planY0]> (<[5%nat := VArray [3; 4]%nat]> ∅))))))
         6%nat.

(** The heap after running [rankStudents] on it. *)
Definition sample_after : heap :=
  match rankStudents_h 2%nat 5%nat sample_heap with Some (_, h) => h | None => sample_heap end.

End Heap.

(** [a] is not ranked behind [b] by the spec's keys. *)
Definition not_behind (a b : RankedStudent) : Prop :=
  lex_gt (spec_key b) (spec_key a) = false.

(** ** Dashboard: the student-list handlers that feed [rankStudents] *)

(** [Array.prototype.findIndex]; [None] stands for [-1]. *)
Fixpoint findIndex {A} (p : A -> bool) (l : list A) : option nat :=
  match l with
  | [] => None
  | x :: rest => if p x then Some 0%nat else option_map S (findIndex p rest)
  end.

(** One turn of [newStudents.forEach(newStu => { const index =
    updatedList.findIndex(s => s.id === newStu.id); if (index !== -1)
    updatedList[index] = newStu; else updatedList.push(newStu); })]. *)
Definition merge_student (updatedList : list Student) (newStu : Student) : list Student :=
  match findIndex (fun s => bool_decide (id s = id newStu)) updatedList with
  | Some index => <[index := newStu]> updatedList
  | None => updatedList ++ [newStu]
  end.

(** The value passed to [setStudents]; a viewer returns before any change.
    The API call that follows does not touch the local list. *)
Definition handleAddStudents (isViewer : bool) (students newStudents : list Student)
  : list Student :=
  if isViewer then students else fold_left merge_student newStudents students.

(** [originalId || updatedStudent.id]: an absent or empty [originalId]
    falls back to the edited student's id. *)
Definition or_id (originalId : option string) (fallback : string) : string :=
  match originalId with
  | Some o => if bool_decide (o = "") then fallback else o
  | None => fallback
  end.

(** [students.map(s => s.id === (originalId || updatedStudent.id) ? updatedStudent : s)]. *)
Definition handleEditStudent (isViewer : bool) (students : list Student)
    (updatedStudent : Student) (originalId : option string) : list Student :=
  if isViewer then students else
  map (fun s => if bool_decide (id s = or_id originalId (id updatedStudent))
                then updatedStudent else s) students.

(** [students.filter(s => s.id !== id)]. *)
Definition handleDeleteStudent (isViewer : bool) (students : list Student) (i : string)
  : list Student :=
  if isViewer then students else List.filter (fun s => negb (bool_decide (id s = i))) students.

(** The latest version of the student with id [i] in a submitted batch. *)
Definition last_by_id (newStudents : list Student) (i : string) : option Student :=
  find (fun t => bool_decide (id t = i)) (rev newStudents).

(** A stored student as it reads after a batch: its latest submitted version. *)
Definition override (newStudents : list Student) (s : Student) : Student :=
  default s (last_by_id newStudents (id s)).

(** ** StudentList: the views of the ranked list *)

Definition ITEMS_PER_PAGE : Z := 100.

(** [s.includes(t)]. *)
Fixpoint includes (s t : string) : bool :=
  String.prefix t s ||
  match s with EmptyString => false | String _ rest => includes rest t end.

(** [Array.prototype.sort] with the comparators of [filteredStudents]: a
    difference of integer keys ([|| 0] turns a missing score into 0).
    Such a comparator is consistent, and every stable sort, V8's included,
    gives the order of this stable insertion sort. *)
Fixpoint insert_by {A} (cmp : A -> A -> Z) (x : A) (l : list A) : list A :=
  match l with
  | [] => [x]
  | y :: ys => if cmp x y <? 0 then x :: y :: ys else y :: insert_by cmp x ys
  end.

Definition sort_by {A} (cmp : A -> A -> Z) (l : list A) : list A :=
  fold_left (fun acc x => insert_by cmp x acc) l [].

Section View.
(** [String.prototype.toLowerCase]. *)
Variable toLowerCase : string -> string.

(** The [students.filter(...)] predicate of [filteredStudents]; the
    [|| ''] fallbacks are the identity on strings. *)
Definition matchesRow (filterStream filterPreferred searchTerm : string)
    (s : RankedStudent) : bool :=
  let matchesQualified :=
    bool_decide (filterStream = "ALL") || bool_decide (qualifiedStream s = Some filterStream) in
  let matchesPreferred :=
    bool_decide (filterPreferred = "ALL") ||
    bool_decide (head (preferredStreams (rs_base s)) = Some filterPreferred) in
  let searchLower := toLowerCase searchTerm in
  let matchesSearch :=
    includes (toLowerCase (firstName (rs_base s))) searchLower ||
    includes (toLowerCase (lastName (rs_base s))) searchLower ||
    includes (toLowerCase (id (rs_base s))) searchLower in
  matchesQualified && matchesPreferred && matchesSearch.

(** The [filteredStudents] memo: filter, then sort by a subject
    ([a.scores[sortSubject] || 0]) or by rank. *)
Definition filteredStudents (students : list RankedStudent)
    (filterStream filterPreferred searchTerm sortSubject sortDirection : string)
  : list RankedStudent :=
  let result := List.filter (matchesRow filterStream filterPreferred searchTerm) students in
  let isDesc := bool_decide (sortDirection = "DESC") in
  if negb (bool_decide (sortSubject = "TOTAL")) then
    sort_by (fun a b =>
      let scoreA := score0 (rs_base a) sortSubject in
      let scoreB := score0 (rs_base b) sortSubject in
      if isDesc then scoreB - scoreA else scoreA - scoreB) result
  else if isDesc then sort_by (fun a b => Z.of_nat (rank a) - Z.of_nat (rank b)) result
  else sort_by (fun a b => Z.of_nat (rank b) - Z.of_nat (rank a)) result.
End View.

(** [Math.ceil(n / d)] for integers and [d > 0]. *)
Definition ceil_div (n d : Z) : Z := - ((- n) / d).

Definition totalPages (rows : nat) : Z := ceil_div (Z.of_nat rows) ITEMS_PER_PAGE.

(** [Array.prototype.slice(start, end)], negative bounds counting from the end. *)
Definition js_slice {A} (l : list A) (start end_ : Z) : list A :=
  let len := Z.of_nat (length l) in
  let from := if start <? 0 then Z.max (len + start) 0 else Z.min start len in
  let to := if end_ <? 0 then Z.max (len + end_) 0 else Z.min end_ len in
  take (Z.to_nat (to - from)) (drop (Z.to_nat from) l).

Definition paginatedStudents {A} (filtered : list A) (currentPage : Z) : list A :=
  let startIndex := (currentPage - 1) * ITEMS_PER_PAGE in
  js_slice filtered startIndex (startIndex + ITEMS_PER_PAGE).

(** [Array.from({ length: totalPages }, (_, i) => i + 1)]: the page buttons. *)
Definition pageButtons (total : Z) : list Z :=
  map (fun i => Z.of_nat i + 1) (seq 0 (Z.to_nat total)).

(** [handleExport]: the rows of each generated sheet (cell styling is not
    modelled; the sheet names are in [handleExport] below).  The first sheet lists everybody, then one
    sheet per plan, then the waiting sheet when it is not empty;
    [!s.qualifiedStream] holds for [null] and for the empty string. *)
Definition planSheet (students : list RankedStudent) (plan : StudyPlan) : list RankedStudent :=
  List.filter (fun s => bool_decide (qualifiedStream s = Some (name plan))) students.

Definition waitingSheet (students : list RankedStudent) : list RankedStudent :=
  List.filter (fun s => match qualifiedStream s with
                        | None => true
                        | Some q => bool_decide (q = "")
                        end) students.

Definition exportSheets (students : list RankedStudent) (studyPlans : list StudyPlan)
  : list (list RankedStudent) :=
  students :: map (planSheet students) studyPlans ++
  (if bool_decide (0 < length (waitingSheet students))%nat then [waitingSheet students] else []).

Section SheetExport.
(** The sheet name given for a plan: [plan.name] with [*?:\/[]] replaced
    by spaces, trimmed and cut to 30 characters. *)
Variable safeSheetName : StudyPlan -> string.
(** The literal titles of the first sheet and of the waiting sheet. *)
Variables allTitle waitingTitle : string.
(** Whether ExcelJS's [workbook.addWorksheet(sheetName)] accepts the name,
    given the names of the sheets already in the workbook.  When it does
    not, it throws; the exception leaves the async [handleExport] and no
    file is written. *)
Variable addWorksheet_ok : list string -> string -> bool.

(** [generateSheet] called on each named sheet in turn: the rows of the
    sheets added, or [None] once an [addWorksheet] call throws. *)
Fixpoint generateSheets (added : list string) (sheets : list (string * list RankedStudent))
  : option (list (list RankedStudent)) :=
  match sheets with
  | [] => Some []
  | (sheetName, data) :: rest =>
      if addWorksheet_ok added sheetName
      then option_map (cons data) (generateSheets (added ++ [sheetName]) rest)
      else None
  end.

(** [handleExport] up to [workbook.xlsx.writeBuffer()]. *)
Definition handleExport (students : list RankedStudent) (studyPlans : list StudyPlan)
  : option (list (list RankedStudent)) :=
  generateSheets []
    ((allTitle, students) ::
     map (fun plan => (safeSheetName plan, planSheet students plan)) studyPlans ++
     (if bool_decide (0 < length (waitingSheet students))%nat
      then [(waitingTitle, waitingSheet students)] else [])).
End SheetExport.

(** ** DataEntry and EditStudentForm: the student built on confirm *)

(** [ExamSubject]: [{ id, name, maxScore }]. *)
Record ExamSubject := mkSubject {
  subj_id : string;
  subj_name : string;
  maxScore : Z
}.

Section Form.
(** [Number(v)] on the text of an [<input type="number">], an integer score. *)
Variable Number : string -> Z.

(** [Number(scores[subj.id] || 0)]: a missing or empty entry gives [0]. *)
Definition form_score (scores : gmap string string) (k : string) : Z :=
  match scores !! k with
  | Some v => if bool_decide (v = "") then 0 else Number v
  | None => 0
  end.

(** [handleConfirm] of both forms: [selectedStreams.filter(s => s !== '')]
    and one score per configured subject. *)
Definition formStudent (id0 title0 firstName0 lastName0 : string)
    (selectedStreams : list string) (scores : gmap string string)
    (subjects : list ExamSubject) : Student :=
  let finalStreams := List.filter (fun s => negb (bool_decide (s = ""))) selectedStreams in
  let finalScores :=
    fold_left (fun m subj => <[subj_id subj := form_score scores (subj_id subj)]> m) subjects ∅ in
  mkStudent id0 title0 firstName0 lastName0 finalScores finalStreams.
End Form.

(** ** Structural lemmas: sort, rank assignment, allocation *)

Lemma insert_sorted_perm x l : Permutation (insert_sorted x l) (x :: l).
Proof.
  induction l as [|y ys IH]; simpl; [done|].
  destruct (before x y); [done|].
  rewrite IH. apply perm_swap.
Qed.

Lemma stable_sort_app l x : stable_sort (l ++ [x]) = insert_sorted x (stable_sort l).
Proof. unfold stable_sort. by rewrite fold_left_app. Qed.

Lemma stable_sort_perm l : Permutation (stable_sort l) l.
Proof.
  induction l as [|x l IH] using rev_ind; [done|].
  rewrite stable_sort_app, insert_sorted_perm, IH.
  apply Permutation_cons_append.
Qed.

Lemma binary_insert_perm {A} (lt : A -> A -> bool) run x :
  Permutation (binary_insert lt run x) (run ++ [x]).
Proof.
  unfold binary_insert.
  set (k := binary_search lt (length run) x run 0 (length run)).
  transitivity (take k run ++ drop k run ++ [x]).
  - apply Permutation_app_head. apply Permutation_cons_append.
  - by rewrite app_assoc, take_drop.
Qed.

Lemma fold_binary_insert_perm {A} (lt : A -> A -> bool) (l acc : list A) :
  Permutation (fold_left (binary_insert lt) l acc) (acc ++ l).
Proof.
  revert acc; induction l as [|x l IH]; intros acc; simpl.
  - by rewrite app_nil_r.
  - rewrite IH, binary_insert_perm, <- app_assoc. done.
Qed.

Lemma rev_take_perm {A} (n : nat) (l : list A) : Permutation (rev (take n l) ++ drop n l) l.
Proof.
  transitivity (take n l ++ drop n l); [|by rewrite take_drop].
  apply Permutation_app_tail. symmetry. apply Permutation_rev.
Qed.

Lemma count_and_make_run_perm {A} (lt : A -> A -> bool) (l : list A) :
  Permutation (snd (count_and_make_run lt l)) l.
Proof.
  destruct l as [|x0 [|x1 rest]]; [done|done|].
  unfold count_and_make_run. destruct (lt x1 x0); [exact (rev_take_perm _ _)|done].
Qed.

Lemma v8_sort_short_perm {A} (lt : A -> A -> bool) (l : list A) :
  Permutation (v8_sort_short lt l) l.
Proof.
  unfold v8_sort_short. destruct (length l <? 2)%nat; [done|].
  pose proof (count_and_make_run_perm lt l) as H.
  destruct (count_and_make_run lt l) as [n l1]. simpl in H.
  by rewrite fold_binary_insert_perm, take_drop.
Qed.

Lemma js_sort_perm l : Permutation (js_sort l) l.
Proof.
  unfold js_sort. destruct (length l <? 64)%nat.
  - apply v8_sort_short_perm.
  - apply stable_sort_perm.
Qed.

Lemma js_sort_length l : length (js_sort l) = length l.
Proof. apply Permutation_length, js_sort_perm. Qed.

Lemma assign_rank_from_rank k l :
  map rank (assign_rank_from k l) = seq (S k) (length l).
Proof. revert k; induction l as [|s l IH]; intros k; simpl; [done|]. by rewrite IH. Qed.

Lemma assign_rank_from_length k l : length (assign_rank_from k l) = length l.
Proof. revert k; induction l as [|s l IH]; intros k; simpl; [done|]. by rewrite IH. Qed.

Lemma allocate_strip pq u l : map strip (fst (allocate pq u l)) = map strip l.
Proof.
  revert u; induction l as [|s l IH]; intros u; simpl; [done|].
  destruct (pick pq _ u) as [a u1].
  specialize (IH u1). destruct (allocate pq u1 l) as [o u2]. simpl in *.
  by rewrite IH.
Qed.

Lemma allocate_length pq u l : length (fst (allocate pq u l)) = length l.
Proof.
  pose proof (f_equal (@length _) (allocate_strip pq u l)) as H.
  by rewrite !length_map in H.
Qed.

Lemma allocate_rank pq u l : map rank (fst (allocate pq u l)) = map rank l.
Proof.
  pose proof (f_equal (map rank) (allocate_strip pq u l)) as H.
  by rewrite !map_map in H.
Qed.

Lemma ranked_length students : length (ranked students) = length students.
Proof.
  unfold ranked, assign_rank.
  by rewrite assign_rank_from_length, js_sort_length, length_map.
Qed.

Lemma ranked_rank students : map rank (ranked students) = seq 1 (length students).
Proof.
  unfold ranked, assign_rank.
  by rewrite assign_rank_from_rank, js_sort_length, length_map.
Qed.

(** ** The allocator's state *)

Lemma pick_cases pq prefs u :
  pick pq prefs u = (None, u) \/
  exists n q c, pick pq prefs u = (Some n, <[n := c + 1]> u) /\
    In n prefs /\ pq !! n = Some q /\ u !! n = Some c /\ c < q.
Proof.
  induction prefs as [|m rest IH]; simpl; [by left|].
  destruct (pq !! m) as [q|] eqn:Hq;
    [destruct (u !! m) as [c|] eqn:Hc; [destruct (c <? q) eqn:Hlt|]|].
  - right. exists m, q, c. repeat split; auto. lia.
  - destruct IH as [IH|(n & q' & c' & IH & ?)]; [by left|right].
    exists n, q', c'. naive_solver.
  - destruct IH as [IH|(n & q' & c' & IH & ?)]; [by left|right].
    exists n, q', c'. naive_solver.
  - destruct IH as [IH|(n & q' & c' & IH & ?)]; [by left|right].
    exists n, q', c'. naive_solver.
Qed.

Lemma allocate_cons pq u s l :
  allocate pq u (s :: l) =
  let '(a, u1) := pick pq (preferredStreams (rs_base s)) u in
  let '(out, u2) := allocate pq u1 l in
  (mkRanked (rs_base s) (totalScore s) (rank s) a :: out, u2).
Proof. done. Qed.

Lemma allocate_app pq u l1 l2 :
  allocate pq u (l1 ++ l2) =
  let '(o1, u1) := allocate pq u l1 in
  let '(o2, u2) := allocate pq u1 l2 in (o1 ++ o2, u2).
Proof.
  revert u; induction l1 as [|s l1 IH]; intros u; simpl.
  - by destruct (allocate pq u l2).
  - destruct (pick pq _ u) as [a u1]. rewrite IH.
    destruct (allocate pq u1 l1) as [o1 v1].
    by destruct (allocate pq v1 l2).
Qed.

Lemma allocate_take pq u l i :
  fst (allocate pq u (take i l)) = take i (fst (allocate pq u l)).
Proof.
  rewrite <- (take_drop i l) at 2. rewrite allocate_app.
  destruct (allocate pq u (take i l)) as [o1 u1] eqn:E1.
  destruct (allocate pq u1 (drop i l)) as [o2 u2] eqn:E2. simpl.
  assert (Hl : length o1 = (i `min` length l)%nat).
  { pose proof (allocate_length pq u (take i l)) as H.
    by rewrite E1, length_take in H. }
  assert (H2 : length o2 = length (drop i l)).
  { pose proof (allocate_length pq u1 (drop i l)) as H.
    by rewrite E2 in H. }
  rewrite length_drop in H2.
  rewrite take_app, take_ge by lia.
  destruct (decide (i <= length l)%nat).
  - by replace (i - length o1)%nat with 0%nat by lia; rewrite app_nil_r.
  - destruct o2; [by rewrite take_nil, app_nil_r | simpl in H2; lia].
Qed.

(** The student at position [i] of the output is the one at position [i]
    of the ranked input, with the stream picked against the usage left by
    the [i] students before it. *)
Lemma allocate_lookup pq u l i r :
  fst (allocate pq u l) !! i = Some r ->
  exists r0, l !! i = Some r0 /\
    r = mkRanked (rs_base r0) (totalScore r0) (rank r0)
          (fst (pick pq (preferredStreams (rs_base r0)) (snd (allocate pq u (take i l))))).
Proof.
  revert u i; induction l as [|s l IH]; intros u i Hi; [done|].
  rewrite allocate_cons in Hi.
  destruct (pick pq _ u) as [a u1] eqn:Hp.
  destruct (allocate pq u1 l) as [o u2] eqn:Ha. simpl in Hi.
  destruct i as [|i]; simpl in Hi.
  - injection Hi as <-. exists s. simpl. by rewrite Hp.
  - destruct (IH u1 i) as (r0 & Hl & ->); [by rewrite Ha|].
    exists r0. split; [done|]. simpl. rewrite Hp.
    by destruct (allocate pq u1 (take i l)).
Qed.

Lemma count_assigned_cons n r l :
  count_assigned n (r :: l) =
  ((if bool_decide (qualifiedStream r = Some n) then 1 else 0) + count_assigned n l)%nat.
Proof. unfold count_assigned. rewrite filter_cons. by case_bool_decide; case_decide. Qed.

Lemma count_assigned_app n l1 l2 :
  count_assigned n (l1 ++ l2) = (count_assigned n l1 + count_assigned n l2)%nat.
Proof. unfold count_assigned. by rewrite filter_app, length_app. Qed.

(** The [quotaUsage] entry of a name counts the students given that name. *)
Lemma allocate_usage pq u l n c :
  u !! n = Some c ->
  snd (allocate pq u l) !! n = Some (c + Z.of_nat (count_assigned n (fst (allocate pq u l)))).
Proof.
  revert u c; induction l as [|s l IH]; intros u c Hc.
  - simpl. rewrite Hc. f_equal. unfold count_assigned. simpl. lia.
  - rewrite allocate_cons.
    destruct (pick_cases pq (preferredStreams (rs_base s)) u)
      as [Hp|(m & q & c' & Hp & _ & _ & Hc' & _)]; rewrite Hp.
    + specialize (IH u c Hc). destruct (allocate pq u l) as [o u2]. simpl in *.
      rewrite IH, count_assigned_cons. case_bool_decide; simplify_eq/=; f_equal; lia.
    + destruct (decide (m = n)) as [->|Hne].
      * rewrite Hc in Hc'. injection Hc' as <-.
        specialize (IH (<[n:=c + 1]> u) (c + 1) (lookup_insert_eq _ _ _)).
        destruct (allocate pq _ l) as [o u2]. simpl in *.
        rewrite IH, count_assigned_cons. case_bool_decide; simplify_eq/=; f_equal; lia.
      * specialize (IH (<[m:=c' + 1]> u) c).
        rewrite lookup_insert_ne in IH by done. specialize (IH Hc).
        destruct (allocate pq _ l) as [o u2]. simpl in *.
        rewrite IH, count_assigned_cons. case_bool_decide; simplify_eq/=; f_equal; lia.
Qed.

(** A name without a [quotaUsage] entry is never given out. *)
Lemma allocate_no_usage pq u l n :
  u !! n = None -> count_assigned n (fst (allocate pq u l)) = 0%nat.
Proof.
  revert u; induction l as [|s l IH]; intros u Hn; [done|].
  rewrite allocate_cons.
  destruct (pick_cases pq (preferredStreams (rs_base s)) u)
    as [Hp|(m & q & c' & Hp & _ & _ & Hc' & _)]; rewrite Hp.
  - specialize (IH u Hn). destruct (allocate pq u l) as [o u2]. simpl in *.
    rewrite count_assigned_cons, IH. case_bool_decide; simplify_eq/=. done.
  - assert (m <> n) by congruence.
    specialize (IH (<[m:=c' + 1]> u)). rewrite lookup_insert_ne in IH by done.
    specialize (IH Hn). destruct (allocate pq _ l) as [o u2]. simpl in *.
    rewrite count_assigned_cons, IH. case_bool_decide; simplify_eq/=. done.
Qed.

(** The usage of a name never passes its quota (or 0). *)
Lemma allocate_bound pq u l n q c :
  pq !! n = Some q -> u !! n = Some c -> c <= Z.max 0 q ->
  exists c', snd (allocate pq u l) !! n = Some c' /\ c' <= Z.max 0 q.
Proof.
  intros Hq. revert u c; induction l as [|s l IH]; intros u c Hc Hle; [by exists c|].
  rewrite allocate_cons.
  destruct (pick_cases pq (preferredStreams (rs_base s)) u)
    as [Hp|(m & q' & c' & Hp & _ & Hq' & Hc' & Hlt)]; rewrite Hp.
  - specialize (IH u c Hc Hle). destruct (allocate pq u l) as [o u2]. done.
  - destruct (decide (m = n)) as [->|Hne].
    + rewrite Hc in Hc'. rewrite Hq in Hq'. injection Hc' as <-. injection Hq' as <-.
      specialize (IH (<[n:=c + 1]> u) (c + 1) (lookup_insert_eq _ _ _) ltac:(lia)).
      destruct (allocate pq _ l) as [o u2]. done.
    + specialize (IH (<[m:=c' + 1]> u) c).
      rewrite lookup_insert_ne in IH by done.
      specialize (IH Hc Hle). destruct (allocate pq _ l) as [o u2]. done.
Qed.

Lemma allocate_usage_none pq u l n :
  u !! n = None -> snd (allocate pq u l) !! n = None.
Proof.
  revert u; induction l as [|s l IH]; intros u Hn; [done|].
  rewrite allocate_cons.
  destruct (pick_cases pq (preferredStreams (rs_base s)) u)
    as [Hp|(m & q & c' & Hp & _ & _ & Hc' & _)]; rewrite Hp.
  - specialize (IH u Hn). by destruct (allocate pq u l).
  - assert (m <> n) by congruence.
    specialize (IH (<[m:=c' + 1]> u)). rewrite lookup_insert_ne in IH by done.
    specialize (IH Hn). by destruct (allocate pq _ l).
Qed.

(** ** The two dictionaries built from the plans *)

Section PlanMaps.
Variable f : StudyPlan -> Z.

Lemma fold_plans_notin plans (m : gmap string Z) n :
  n ∉ map name plans ->
  fold_left (fun m p => <[name p := f p]> m) plans m !! n = m !! n.
Proof.
  revert m; induction plans as [|p plans IH]; intros m Hn; [done|].
  simpl in *. rewrite IH by set_solver. apply lookup_insert_ne. set_solver.
Qed.

Lemma fold_plans_last pre p suf (m : gmap string Z) :
  name p ∉ map name suf ->
  fold_left (fun m p => <[name p := f p]> m) (pre ++ p :: suf) m !! name p = Some (f p).
Proof.
  intros Hn. rewrite fold_left_app. simpl.
  rewrite fold_plans_notin by done. apply lookup_insert_eq.
Qed.
Lemma fold_plans_agree plans (m1 m2 : gmap string Z) :
  (forall k, m1 !! k = m2 !! k) ->
  forall k, fold_left (fun m p => <[name p := f p]> m) plans m1 !! k =
            fold_left (fun m p => <[name p := f p]> m) plans m2 !! k.
Proof.
  revert m1 m2; induction plans as [|p plans IH]; intros m1 m2 H; [done|].
  simpl. apply IH. intros k. rewrite !lookup_insert. by case_decide.
Qed.

Lemma fold_plans_filter_agree pre n (m1 m2 : gmap string Z) :
  (forall k, k <> n -> m1 !! k = m2 !! k) ->
  forall k, k <> n ->
    fold_left (fun m p => <[name p := f p]> m) (filter (fun q => name q <> n) pre) m1 !! k =
    fold_left (fun m p => <[name p := f p]> m) pre m2 !! k.
Proof.
  revert m1 m2; induction pre as [|q pre IH]; intros m1 m2 H; [done|].
  rewrite filter_cons. case_decide as Hq; simpl; apply IH; intros k Hk.
  - rewrite !lookup_insert. case_decide; [done|]. by apply H.
  - assert (name q = n) as <- by (destruct (decide (name q = n)); tauto).
    rewrite lookup_insert_ne by done. by apply H.
Qed.

(** Dropping the earlier definitions of the last-defined name changes
    nothing in the dictionary. *)
Lemma fold_plans_drop_earlier pre p suf :
  fold_left (fun m p => <[name p := f p]> m) (filter (fun q => name q <> name p) pre ++ p :: suf)
    (∅ : gmap string Z) =
  fold_left (fun m p => <[name p := f p]> m) (pre ++ p :: suf) (∅ : gmap string Z).
Proof.
  apply map_eq. intros k. rewrite !fold_left_app. simpl.
  apply fold_plans_agree. intros k'. rewrite !lookup_insert. case_decide; [done|].
  apply fold_plans_filter_agree; [done|]. congruence.
Qed.
(** The writes through [js_set] store what plain inserts store, except
    for the key "__proto__". *)
Lemma fold_js_set plans (m : gmap string Z) :
  fold_left (fun m p => js_set (name p) (f p) m) plans (delete "__proto__" m) =
  delete "__proto__" (fold_left (fun m p => <[name p := f p]> m) plans m).
Proof.
  revert m; induction plans as [|p plans IH]; intros m; [done|]. simpl.
  rewrite <- IH. f_equal. unfold js_set. case_bool_decide as Hp.
  - by rewrite Hp, delete_insert_eq.
  - rewrite delete_insert_ne; [done|]. congruence.
Qed.

Lemma fold_js_set_empty plans :
  fold_left (fun m p => js_set (name p) (f p) m) plans (∅ : gmap string Z) =
  delete "__proto__" (fold_left (fun m p => <[name p := f p]> m) plans ∅).
Proof. rewrite <- fold_js_set. by rewrite delete_empty. Qed.
End PlanMaps.

(** [planQuotas] holds the configured quotas but for a track named
    "__proto__". *)
Lemma planQuotasOf_configured plans :
  planQuotasOf plans = delete "__proto__" (configured_quotas plans).
Proof. apply fold_js_set_empty. Qed.

Lemma initQuotaUsage_configured plans :
  initQuotaUsage plans = delete "__proto__" (fold_left (fun m p => <[name p := 0]> m) plans ∅).
Proof. apply (fold_js_set_empty (fun _ => 0)). Qed.

(** [planQuotas[name]]: the last definition of a name wins. *)
Lemma planQuotas_last pre p suf :
  name p ∉ map name suf -> name p <> "__proto__" ->
  planQuotasOf (pre ++ p :: suf) !! name p = Some (quota p).
Proof.
  intros Hn Hp. rewrite planQuotasOf_configured, lookup_delete_ne; [|congruence].
  by apply fold_plans_last.
Qed.

Lemma planQuotas_unique plans p :
  NoDup (map name plans) -> In p plans -> name p <> "__proto__" ->
  planQuotasOf plans !! name p = Some (quota p).
Proof.
  intros Hnd Hin Hp. apply in_split in Hin as (pre & suf & ->).
  apply planQuotas_last; [|done].
  rewrite map_app in Hnd. simpl in Hnd.
  apply NoDup_app in Hnd as (_ & _ & Hnd). by apply NoDup_cons in Hnd as [? _].
Qed.

Lemma planQuotas_proto plans : planQuotasOf plans !! "__proto__" = None.
Proof. by rewrite planQuotasOf_configured, lookup_delete_eq. Qed.

(** [quotaUsage] has an entry, 0, exactly for the names [planQuotas] has. *)
Lemma initQuotaUsage_lookup plans n :
  initQuotaUsage plans !! n = (fun _ => 0) <$> planQuotasOf plans !! n.
Proof.
  rewrite initQuotaUsage_configured, planQuotasOf_configured.
  destruct (decide (n = "__proto__")) as [->|Hn]; [by rewrite !lookup_delete_eq|].
  rewrite !lookup_delete_ne by congruence. revert n Hn. unfold configured_quotas.
  assert (Hgen : forall (m1 m2 : gmap string Z),
    (forall k, m1 !! k = (fun _ => 0) <$> m2 !! k) ->
    forall k, fold_left (fun m p => <[name p := 0]> m) plans m1 !! k =
              (fun _ => 0) <$> fold_left (fun m p => <[name p := quota p]> m) plans m2 !! k).
  { induction plans as [|p plans IH]; intros m1 m2 Hm; [done|].
    simpl. apply IH. intros k. rewrite !lookup_insert.
    case_decide; [done|]. apply Hm. }
  intros n _. apply Hgen. intros k. by rewrite !lookup_empty.
Qed.

(** ** The allocator's state during [rankStudents] *)

Lemma rankStudents_rank students plans :
  map rank (rankStudents students plans) = seq 1 (length students).
Proof. unfold rankStudents. by rewrite allocate_rank, ranked_rank. Qed.

Lemma rankStudents_take students plans i :
  take i (rankStudents students plans) =
  fst (allocate (planQuotasOf plans) (initQuotaUsage plans) (take i (ranked students))).
Proof. unfold rankStudents. by rewrite allocate_take. Qed.

Lemma usage_at_configured students plans i n q :
  planQuotasOf plans !! n = Some q ->
  usage_at plans students i !! n =
    Some (Z.of_nat (count_assigned n (take i (rankStudents students plans)))).
Proof.
  intros Hq. unfold usage_at. rewrite rankStudents_take.
  rewrite (allocate_usage _ _ _ n 0); [done|].
  by rewrite initQuotaUsage_lookup, Hq.
Qed.

Lemma usage_at_unconfigured students plans i n :
  planQuotasOf plans !! n = None -> usage_at plans students i !! n = None.
Proof.
  intros Hq. unfold usage_at. apply allocate_usage_none.
  by rewrite initQuotaUsage_lookup, Hq.
Qed.

(** Every name is given out at most [max 0 quota] times, where quota is
    the [planQuotas] entry; a name without an entry is never given out. *)
Lemma rankStudents_count_bound students plans n q :
  planQuotasOf plans !! n = Some q ->
  Z.of_nat (count_assigned n (rankStudents students plans)) <= Z.max 0 q.
Proof.
  intros Hq. unfold rankStudents.
  assert (H0 : initQuotaUsage plans !! n = Some 0)
    by by rewrite initQuotaUsage_lookup, Hq.
  destruct (allocate_bound (planQuotasOf plans) (initQuotaUsage plans) (ranked students) n q 0 Hq H0 ltac:(lia))
    as (c' & Hc' & Hle).
  rewrite (allocate_usage _ _ _ n 0 H0) in Hc'. injection Hc' as <-. lia.
Qed.

Lemma rankStudents_count_unconfigured students plans n :
  planQuotasOf plans !! n = None ->
  count_assigned n (rankStudents students plans) = 0%nat.
Proof.
  intros Hq. apply allocate_no_usage. by rewrite initQuotaUsage_lookup, Hq.
Qed.

Lemma pick_find pq u (placed : string -> Z) prefs :
  (forall n q, pq !! n = Some q -> u !! n = Some (placed n)) ->
  fst (pick pq prefs u) = first_open_preference pq placed prefs.
Proof.
  intros Hu. unfold first_open_preference.
  induction prefs as [|m rest IH]; simpl; [done|].
  destruct (pq !! m) as [q|] eqn:Hq; [|done].
  rewrite (Hu m q Hq).
  destruct (placed m <? q) eqn:E1; destruct (0 <? q - placed m) eqn:E2; try done; lia.
Qed.

Lemma rankStudents_lookup students plans i r :
  rankStudents students plans !! i = Some r ->
  exists r0, ranked students !! i = Some r0 /\
    r = mkRanked (rs_base r0) (totalScore r0) (rank r0)
          (fst (pick (planQuotasOf plans) (preferredStreams (rs_base r0))
                     (usage_at plans students i))).
Proof. apply allocate_lookup. Qed.

(** The stream of the student at position [i], in the spec's words. *)
Lemma rankStudents_stream students plans i r :
  rankStudents students plans !! i = Some r ->
  qualifiedStream r =
    first_open_preference (planQuotasOf plans)
      (fun n => Z.of_nat (count_assigned n (take i (rankStudents students plans))))
      (preferredStreams (rs_base r)).
Proof.
  intros Hi. destruct (rankStudents_lookup _ _ _ _ Hi) as (r0 & _ & ->). simpl.
  apply pick_find. intros n q Hq. by apply (usage_at_configured _ _ _ _ q).
Qed.



Lemma pick_blocked pq u prefs :
  (forall n, In n prefs ->
     match pq !! n with
     | Some q => forall c, u !! n = Some c -> q <= c
     | None => True
     end) ->
  pick pq prefs u = (None, u).
Proof.
  induction prefs as [|m rest IH]; intros H; simpl; [done|].
  pose proof (H m (or_introl eq_refl)) as Hm.
  destruct (pq !! m) as [q|]; [destruct (u !! m) as [c|] eqn:Hc;
    [specialize (Hm c eq_refl); destruct (c <? q) eqn:E; [lia|]|]|];
    apply IH; intros n Hn; apply H; by right.
Qed.

(** ** The comparator against the spec's order *)


Lemma has_all_scores_inv s :
  has_all_scores s ->
  exists m sc t e so, score s "math" = Some m /\ score s "science" = Some sc /\
    score s "thai" = Some t /\ score s "english" = Some e /\ score s "social" = Some so.
Proof.
  unfold has_all_scores, subject_keys. rewrite !Forall_cons.
  intros ([m Hm] & [sc Hs] & [t Ht] & [e He] & [so Hso] & _).
  exists m, sc, t, e, so. done.
Qed.

Lemma sign_step x y (r : jsnum) :
  sort_sign_negative (if negb (x =? y) then JN (y - x) else r) =
  (y <? x) || ((x =? y) && sort_sign_negative r).
Proof.
  destruct (Z.eqb_spec x y) as [->|Hne]; simpl.
  - by rewrite Z.ltb_irrefl.
  - destruct (Z.ltb_spec y x), (Z.ltb_spec (y - x) 0); simpl; lia.
Qed.

Lemma before_lex a b :
  ranked_ok a -> ranked_ok b -> before a b = lex_gt (spec_key a) (spec_key b).
Proof.
  intros [Ha Hsa] [Hb Hsb].
  destruct (has_all_scores_inv _ Hsa) as (m1 & s1 & t1 & e1 & o1 & Hm1 & Hs1 & Ht1 & He1 & Ho1).
  destruct (has_all_scores_inv _ Hsb) as (m2 & s2 & t2 & e2 & o2 & Hm2 & Hs2 & Ht2 & He2 & Ho2).
  unfold before, compare_ranked, tieBreaker, spec_key, score0, js_sub_val.
  rewrite Ha, Hb. unfold calculateTotal.
  rewrite Hm1, Hs1, Ht1, He1, Ho1, Hm2, Hs2, Ht2, He2, Ho2. simpl.
  rewrite (Z.eqb_sym (m2 + s2 + t2 + e2 + o2)), !sign_step. simpl.
  destruct (Z.ltb_spec (o2 - o1) 0), (Z.ltb_spec o2 o1); simpl; try lia.
  all: by rewrite ?andb_false_r.
Qed.

(** ** Lexicographic order facts *)

Lemma lex_gt_irrefl a : lex_gt a a = false.
Proof. induction a as [|x a IH]; simpl; [done|]. by rewrite Z.ltb_irrefl, Z.eqb_refl, IH. Qed.

Lemma lex_gt_trans a b c :
  lex_gt a b = true -> lex_gt b c = true -> lex_gt a c = true.
Proof.
  revert b c; induction a as [|x a IH]; intros [|y b] [|z c]; simpl; try done.
  rewrite !orb_true_iff, !andb_true_iff, !Z.ltb_lt, !Z.eqb_eq.
  intros H1 H2. destruct H1 as [H1|[-> H1]], H2 as [H2|[-> H2]]; try lia.
  right. split; [done|]. eauto.
Qed.

Lemma lex_gt_total a b :
  length a = length b -> lex_gt a b = false -> lex_gt b a = false -> a = b.
Proof.
  revert b; induction a as [|x a IH]; intros [|y b]; simpl; try done.
  intros Hl. rewrite !orb_false_iff, !andb_false_iff, !Z.ltb_ge, !Z.eqb_neq.
  intros [H1 H2] [H3 H4]. assert (x = y) as -> by lia.
  f_equal. apply IH; [lia| |]; destruct H2, H4; done.
Qed.

(** ** Insertion sort: order and stability *)

Lemma insert_sorted_in x l z : In z (insert_sorted x l) <-> z = x \/ In z l.
Proof.
  split.
  - intros H. eapply Permutation_in in H; [|apply insert_sorted_perm]. by destruct H; auto.
  - intros H. eapply Permutation_in; [symmetry; apply insert_sorted_perm|]. by destruct H as [->|]; [left|right].
Qed.

Lemma insert_sorted_sorted x l :
  ranked_ok x -> Forall ranked_ok l -> StronglySorted not_behind l ->
  StronglySorted not_behind (insert_sorted x l).
Proof.
  intros Hx. induction l as [|y ys IH]; intros Hl Hs; simpl.
  - repeat constructor.
  - inversion_clear Hl as [|? ? Hy Hys]. inversion_clear Hs as [|? ? Hss Hall].
    rewrite before_lex by done.
    destruct (lex_gt (spec_key x) (spec_key y)) eqn:Hxy.
    + constructor; [by constructor|].
      constructor.
      * unfold not_behind. destruct (lex_gt (spec_key y) (spec_key x)) eqn:Hyx; [|done].
        pose proof (lex_gt_trans _ _ _ Hxy Hyx). by rewrite lex_gt_irrefl in *.
      * rewrite Forall_forall in Hall |- *. intros z Hz. specialize (Hall z Hz).
        unfold not_behind in *. destruct (lex_gt (spec_key z) (spec_key x)) eqn:Hzx; [|done].
        pose proof (lex_gt_trans _ _ _ Hzx Hxy). congruence.
    + constructor; [by apply IH|].
      rewrite Forall_forall in Hall |- *. intros z Hz.
      apply list_elem_of_In, insert_sorted_in in Hz as [->|Hz]; [done|].
      apply Hall, list_elem_of_In, Hz.
Qed.

Lemma stable_sort_sorted l :
  Forall ranked_ok l -> StronglySorted not_behind (stable_sort l).
Proof.
  induction l as [|x l IH] using rev_ind; intros Hl; [constructor|].
  apply Forall_app in Hl as [Hl Hx]. inversion_clear Hx.
  rewrite stable_sort_app. apply insert_sorted_sorted; [done| |by apply IH].
  eapply Permutation_Forall; [symmetry; apply stable_sort_perm|done].
Qed.

Lemma strongly_sorted_lookup {A} (R : A -> A -> Prop) l i j a b :
  StronglySorted R l -> (i < j)%nat -> l !! i = Some a -> l !! j = Some b -> R a b.
Proof.
  revert i j; induction l as [|x l IH]; intros i j Hs Hij Hi Hj; [done|].
  inversion_clear Hs as [|? ? Hs' Hall].
  destruct i as [|i], j as [|j]; simpl in *; try lia.
  - injection Hi as <-. rewrite Forall_forall in Hall. apply Hall.
    apply list_elem_of_lookup. eauto.
  - apply (IH i j); auto. lia.
Qed.

Lemma filter_none {A} (P : A -> Prop) `{!forall x, Decision (P x)} l :
  (forall z, In z l -> ~ P z) -> filter P l = [].
Proof.
  induction l as [|x l IH]; intros Hn; [done|].
  rewrite filter_cons_False; [|apply Hn; by left]. apply IH. intros z Hz. apply Hn. by right.
Qed.

(** Stability: among records with one key, insertion keeps arrival order. *)
Lemma insert_sorted_filter x l kk :
  ranked_ok x -> Forall ranked_ok l -> StronglySorted not_behind l ->
  filter (fun r => spec_key r = kk) (insert_sorted x l) =
  filter (fun r => spec_key r = kk) l ++ filter (fun r => spec_key r = kk) [x].
Proof.
  intros Hx. induction l as [|y ys IH]; intros Hl Hs; simpl; [done|].
  inversion_clear Hl as [|? ? Hy Hys]. inversion_clear Hs as [|? ? Hss Hall].
  rewrite before_lex by done.
  destruct (lex_gt (spec_key x) (spec_key y)) eqn:Hxy.
  - (* every record of [y :: ys] is strictly behind [x] *)
    assert (Hbehind : forall z, In z (y :: ys) -> spec_key z <> spec_key x).
    { intros z Hz Heq. destruct Hz as [<-|Hz].
      - rewrite Heq, lex_gt_irrefl in Hxy. done.
      - rewrite Forall_forall in Hall. apply list_elem_of_In in Hz.
        specialize (Hall z Hz). unfold not_behind in Hall.
        rewrite Heq, Hxy in Hall. done. }
    destruct (decide (spec_key x = kk)) as [Hk|Hk].
    + rewrite filter_cons_True by done. rewrite (filter_cons_True _ x []) by done.
      rewrite (filter_none _ (y :: ys)); [done|].
      intros z Hz. rewrite <- Hk. by apply Hbehind.
    + rewrite filter_cons_False by done. rewrite (filter_cons_False _ x []) by done.
      by rewrite filter_nil, app_nil_r.
  - rewrite !filter_cons, IH by done. by case_decide.
Qed.

Lemma stable_sort_filter l kk :
  Forall ranked_ok l ->
  filter (fun r => spec_key r = kk) (stable_sort l) = filter (fun r => spec_key r = kk) l.
Proof.
  induction l as [|x l IH] using rev_ind; intros Hl; [done|].
  apply Forall_app in Hl as [Hl Hx]. inversion_clear Hx.
  rewrite stable_sort_app, insert_sorted_filter, IH, filter_app; try done.
  - eapply Permutation_Forall; [symmetry; apply stable_sort_perm|done].
  - by apply stable_sort_sorted.
Qed.

(** ** V8's sort below 64 elements: order and stability *)

Lemma not_behind_trans a b c : not_behind a b -> not_behind b c -> not_behind a c.
Proof.
  unfold not_behind. intros H1 H2.
  destruct (lex_gt (spec_key c) (spec_key a)) eqn:H3; [|done].
  destruct (lex_gt (spec_key a) (spec_key b)) eqn:H4.
  - by rewrite (lex_gt_trans _ _ _ H3 H4) in H2.
  - assert (E : spec_key a = spec_key b) by (apply lex_gt_total; done).
    by rewrite <- E, H3 in H2.
Qed.

Lemma ahead_not_behind a b : lex_gt (spec_key a) (spec_key b) = true -> not_behind a b.
Proof.
  unfold not_behind. intros H. destruct (lex_gt (spec_key b) (spec_key a)) eqn:H'; [|done].
  pose proof (lex_gt_trans _ _ _ H H') as H''. by rewrite lex_gt_irrefl in H''.
Qed.

(** The relation of a strictly descending run: [b] strictly ahead of [a]. *)
Lemma ahead_trans : Transitive (fun a b : RankedStudent => lex_gt (spec_key b) (spec_key a) = true).
Proof. intros a b c H1 H2. by apply (lex_gt_trans _ (spec_key b)). Qed.

Lemma not_behind_Transitive : Transitive not_behind.
Proof. intros a b c. apply not_behind_trans. Qed.

Lemma ss_app {A} (R : A -> A -> Prop) l1 l2 :
  StronglySorted R l1 -> StronglySorted R l2 ->
  (forall a b, In a l1 -> In b l2 -> R a b) -> StronglySorted R (l1 ++ l2).
Proof.
  induction l1 as [|x l1 IH]; intros H1 H2 Hx; simpl; [done|].
  inversion_clear H1 as [|? ? H1' Hall]. constructor.
  - apply IH; [done|done|]. intros a b Ha Hb. apply Hx; [by right|done].
  - rewrite Forall_forall. intros b Hb. apply list_elem_of_In, in_app_or in Hb as [Hb|Hb].
    + rewrite Forall_forall in Hall. by apply Hall, list_elem_of_In.
    + apply Hx; [by left|done].
Qed.

Lemma ss_app_inv {A} (R : A -> A -> Prop) l1 l2 :
  StronglySorted R (l1 ++ l2) ->
  StronglySorted R l1 /\ StronglySorted R l2 /\ (forall a b, In a l1 -> In b l2 -> R a b).
Proof.
  induction l1 as [|x l1 IH]; intros H; simpl in *; [split; [constructor|tauto]|].
  inversion_clear H as [|? ? H' Hall]. destruct (IH H') as (H1 & H2 & H3).
  rewrite Forall_forall in Hall. split; [|split; [done|]].
  - constructor; [done|]. rewrite Forall_forall. intros b Hb. apply Hall.
    apply list_elem_of_In, in_or_app. left. by apply list_elem_of_In.
  - intros a b [<-|Ha] Hb; [|by apply H3].
    apply Hall, list_elem_of_In, in_or_app. by right.
Qed.

Lemma ss_weaken {A} (R R' : A -> A -> Prop) l :
  (forall a b, R a b -> R' a b) -> StronglySorted R l -> StronglySorted R' l.
Proof.
  intros HR. induction 1 as [|x l Hs IH Hall]; constructor; [done|].
  eapply Forall_impl; [exact Hall|]. apply HR.
Qed.

Lemma ss_rev {A} (R : A -> A -> Prop) l :
  StronglySorted R l -> StronglySorted (fun a b => R b a) (rev l).
Proof.
  induction 1 as [|x l Hs IH Hall]; simpl; [constructor|].
  apply ss_app; [done|repeat constructor|].
  intros a b Ha [<-|[]]. rewrite Forall_forall in Hall.
  apply Hall, list_elem_of_In. by apply in_rev.
Qed.

(** A strictly descending run holds one record per key: reversing it
    keeps the records of each key in place. *)
Lemma filter_rev_strict l kk :
  StronglySorted (fun a b => lex_gt (spec_key b) (spec_key a) = true) l ->
  filter (fun r => spec_key r = kk) (rev l) = filter (fun r => spec_key r = kk) l.
Proof.
  induction 1 as [|x l Hs IH Hall]; [done|]. simpl.
  rewrite filter_app, IH. destruct (decide (spec_key x = kk)) as [Hk|Hk].
  - rewrite !filter_cons_True, filter_nil by done.
    rewrite filter_none; [done|]. intros z Hz Hzk.
    rewrite Forall_forall in Hall. specialize (Hall z (proj2 (list_elem_of_In _ _) Hz)).
    cbv beta in Hall. rewrite Hzk, <- Hk, lex_gt_irrefl in Hall. done.
  - rewrite !filter_cons_False, filter_nil by done. by rewrite app_nil_r.
Qed.

Lemma binary_search_spec {A} (lt : A -> A -> bool) pivot run fuel left right :
  (forall i j x y, (i <= j)%nat -> run !! i = Some x -> run !! j = Some y ->
     lt pivot x = true -> lt pivot y = true) ->
  (left <= right <= length run)%nat -> (right - left <= fuel)%nat ->
  (forall i x, (i < left)%nat -> run !! i = Some x -> lt pivot x = false) ->
  (forall i x, (right <= i)%nat -> run !! i = Some x -> lt pivot x = true) ->
  (forall i x, (i < binary_search lt fuel pivot run left right)%nat ->
     run !! i = Some x -> lt pivot x = false) /\
  (forall i x, (binary_search lt fuel pivot run left right <= i)%nat ->
     run !! i = Some x -> lt pivot x = true).
Proof.
  intros Hmono. revert left right.
  induction fuel as [|fuel IH]; intros left right Hb Hf Hl Hr; cbn [binary_search].
  - assert (left = right) as <- by lia. done.
  - destruct (Nat.ltb_spec left right) as [Hlt|Hge];
      [|assert (left = right) as <- by lia; done].
    assert (Hd : ((right - left) / 2 < right - left)%nat) by (apply Nat.div_lt; lia).
    destruct (lookup_lt_is_Some_2 run (left + (right - left) / 2)%nat) as [m Hm]; [lia|].
    rewrite Hm. destruct (lt pivot m) eqn:Hpm.
    + apply IH; [lia|lia|done|]. intros i x Hi Hx.
      by apply (Hmono (left + (right - left) / 2)%nat i m x).
    + apply IH; [lia|lia| |done]. intros i x Hi Hx.
      destruct (lt pivot x) eqn:Hpx; [|done].
      rewrite <- Hpm. symmetry. by apply (Hmono i (left + (right - left) / 2)%nat x m); [lia| | |].
Qed.

Lemma before_sorted_mono pivot run i j x y :
  ranked_ok pivot -> Forall ranked_ok run -> StronglySorted not_behind run ->
  (i <= j)%nat -> run !! i = Some x -> run !! j = Some y ->
  before pivot x = true -> before pivot y = true.
Proof.
  intros Hp Hok Hs Hij Hx Hy.
  destruct (decide (i = j)) as [<-|Hne]; [congruence|].
  pose proof (strongly_sorted_lookup _ _ i j x y Hs ltac:(lia) Hx Hy) as Hxy.
  rewrite !before_lex by (done || by apply (Forall_lookup_1 _ _ _ _ Hok Hx)
                                || by apply (Forall_lookup_1 _ _ _ _ Hok Hy)).
  unfold not_behind in Hxy. intros H.
  destruct (lex_gt (spec_key x) (spec_key y)) eqn:E.
  - by apply (lex_gt_trans _ (spec_key x)).
  - assert (Exy : spec_key x = spec_key y) by (apply lex_gt_total; done).
    by rewrite <- Exy.
Qed.

Lemma binary_insert_props run x :
  ranked_ok x -> Forall ranked_ok run -> StronglySorted not_behind run ->
  StronglySorted not_behind (binary_insert before run x) /\
  forall kk, filter (fun r => spec_key r = kk) (binary_insert before run x) =
             filter (fun r => spec_key r = kk) run ++ filter (fun r => spec_key r = kk) [x].
Proof.
  intros Hx Hok Hs. unfold binary_insert.
  destruct (binary_search_spec before x run (length run) 0 (length run)) as [Hlo Hhi].
  { intros i j a b Hij Ha Hb. by apply (before_sorted_mono x run i j a b). }
  { lia. } { lia. } { intros; lia. }
  { intros i a Hi Ha. apply lookup_lt_Some in Ha. lia. }
  set (k := binary_search before (length run) x run 0 (length run)) in *.
  assert (Htake : forall y, In y (take k run) -> not_behind y x).
  { intros y Hy. apply list_elem_of_In, list_elem_of_lookup in Hy as [i Hi].
    apply lookup_take_Some in Hi as [Hi Hik].
    unfold not_behind. rewrite <- before_lex; [by apply (Hlo i)|done|].
    by apply (Forall_lookup_1 _ _ _ _ Hok Hi). }
  assert (Hdrop : forall y, In y (drop k run) -> lex_gt (spec_key x) (spec_key y) = true).
  { intros y Hy. apply list_elem_of_In, list_elem_of_lookup in Hy as [i Hi].
    rewrite lookup_drop in Hi.
    rewrite <- before_lex; [apply (Hhi (k + i)%nat); [lia|done]|done|].
    by apply (Forall_lookup_1 _ _ _ _ Hok Hi). }
  pose proof Hs as Hs'. rewrite <- (take_drop k run) in Hs'.
  apply ss_app_inv in Hs' as (Hs1 & Hs2 & Hcross).
  split.
  - apply ss_app; [done| |].
    + constructor; [done|]. rewrite Forall_forall. intros y Hy.
      apply ahead_not_behind, Hdrop, list_elem_of_In, Hy.
    + intros a b Ha [<-|Hb]; [by apply Htake|by apply Hcross].
  - intros kk.
    assert (Hsplit : filter (fun r => spec_key r = kk) run =
      filter (fun r => spec_key r = kk) (take k run) ++ filter (fun r => spec_key r = kk) (drop k run))
      by (rewrite <- filter_app, take_drop; done).
    rewrite Hsplit, filter_app, <- app_assoc. f_equal.
    destruct (decide (spec_key x = kk)) as [Hk|Hk].
    + rewrite (filter_cons_True _ x (drop k run)), (filter_cons_True _ x []), filter_nil by done.
      rewrite filter_none; [done|]. intros z Hz Hzk.
      specialize (Hdrop z Hz). rewrite Hzk, <- Hk, lex_gt_irrefl in Hdrop. done.
    + rewrite (filter_cons_False _ x (drop k run)), (filter_cons_False _ x []), filter_nil by done.
      by rewrite app_nil_r.
Qed.

Lemma fold_binary_insert_props l acc :
  Forall ranked_ok acc -> Forall ranked_ok l -> StronglySorted not_behind acc ->
  StronglySorted not_behind (fold_left (binary_insert before) l acc) /\
  forall kk, filter (fun r => spec_key r = kk) (fold_left (binary_insert before) l acc) =
             filter (fun r => spec_key r = kk) (acc ++ l).
Proof.
  revert acc; induction l as [|x l IH]; intros acc Hacc Hl Hs; simpl.
  - split; [done|]. intros kk. by rewrite app_nil_r.
  - inversion_clear Hl as [|? ? Hx Hl'].
    destruct (binary_insert_props acc x Hx Hacc Hs) as [Hs' Hf'].
    destruct (IH (binary_insert before acc x)) as [IH1 IH2]; [|done|done|].
    { eapply Permutation_Forall; [symmetry; apply binary_insert_perm|].
      apply Forall_app; split; [done|by constructor]. }
    split; [done|]. intros kk.
    rewrite IH2, filter_app, Hf', <- app_assoc, <- !filter_app. done.
Qed.

Lemma run_ascending_sorted prev rest :
  ranked_ok prev -> Forall ranked_ok rest ->
  Sorted not_behind (prev :: take (run_ascending before prev rest) rest).
Proof.
  revert prev; induction rest as [|x rest IH]; intros prev Hp Hr; cbn [run_ascending take]; [repeat constructor|].
  inversion_clear Hr as [|? ? Hx Hrest].
  destruct (before x prev) eqn:E; cbn [take]; [repeat constructor|].
  constructor; [by apply IH|]. constructor.
  unfold not_behind. by rewrite <- before_lex.
Qed.

Lemma run_descending_sorted prev rest :
  ranked_ok prev -> Forall ranked_ok rest ->
  Sorted (fun a b => lex_gt (spec_key b) (spec_key a) = true)
    (prev :: take (run_descending before prev rest) rest).
Proof.
  revert prev; induction rest as [|x rest IH]; intros prev Hp Hr; cbn [run_descending take]; [repeat constructor|].
  inversion_clear Hr as [|? ? Hx Hrest].
  destruct (before x prev) eqn:E; cbn [take]; [|repeat constructor].
  constructor; [by apply IH|]. constructor.
  cbv beta. by rewrite <- before_lex.
Qed.

Lemma run_descending_le {A} (lt : A -> A -> bool) prev rest :
  (run_descending lt prev rest <= length rest)%nat.
Proof.
  revert prev; induction rest as [|x rest IH]; intros prev; simpl; [lia|].
  destruct (lt x prev); [specialize (IH x); lia|lia].
Qed.

Lemma v8_sort_short_props l :
  Forall ranked_ok l ->
  StronglySorted not_behind (v8_sort_short before l) /\
  forall kk, filter (fun r => spec_key r = kk) (v8_sort_short before l) =
             filter (fun r => spec_key r = kk) l.
Proof.
  intros Hl. unfold v8_sort_short.
  destruct (length l <? 2)%nat eqn:Hlen.
  { split; [|done]. destruct l as [|x [|y l]]; simpl in Hlen; try discriminate; repeat constructor. }
  destruct l as [|x0 [|x1 rest]]; simpl in Hlen; try discriminate.
  pose proof Hl as Hl0.
  inversion_clear Hl as [|? ? H0 Hl1]. inversion_clear Hl1 as [|? ? H1 Hrest].
  unfold count_and_make_run. destruct (before x1 x0) eqn:E.
  - set (n := (2 + run_descending before x1 rest)%nat).
    set (L := x0 :: x1 :: rest).
    assert (Hn : n = length (rev (take n L))).
    { rewrite length_rev, length_take. subst n L. simpl.
      pose proof (run_descending_le before x1 rest). lia. }
    cbn zeta. rewrite (take_app_length' _ _ n Hn), (drop_app_length' _ _ n Hn).
    assert (Hrun : StronglySorted (fun a b => lex_gt (spec_key b) (spec_key a) = true) (take n L)).
    { apply Sorted_StronglySorted; [apply ahead_trans|]. subst n L. cbn [take].
      constructor; [by apply run_descending_sorted|]. constructor. cbv beta. by rewrite <- before_lex. }
    destruct (fold_binary_insert_props (drop n L) (rev (take n L))) as [Hs Hf].
    { eapply Permutation_Forall; [apply Permutation_rev|]. by apply Forall_take. }
    { by apply Forall_drop. }
    { eapply ss_weaken; [|apply ss_rev, Hrun]. intros a b. apply ahead_not_behind. }
    split; [done|]. intros kk.
    rewrite Hf, filter_app, filter_rev_strict, <- filter_app, take_drop by done. done.
  - set (n := (2 + run_ascending before x1 rest)%nat).
    set (L := x0 :: x1 :: rest).
    destruct (fold_binary_insert_props (drop n L) (take n L)) as [Hs Hf].
    { by apply Forall_take. }
    { by apply Forall_drop. }
    { apply Sorted_StronglySorted; [apply not_behind_Transitive|]. subst n L. cbn [take].
      constructor; [by apply run_ascending_sorted|]. constructor.
      unfold not_behind. by rewrite <- before_lex. }
    split; [done|]. intros kk. by rewrite Hf, take_drop.
Qed.

Lemma js_sort_sorted l :
  Forall ranked_ok l -> StronglySorted not_behind (js_sort l).
Proof.
  intros Hl. unfold js_sort. destruct (length l <? 64)%nat.
  - by apply v8_sort_short_props.
  - by apply stable_sort_sorted.
Qed.

Lemma js_sort_filter l kk :
  Forall ranked_ok l ->
  filter (fun r => spec_key r = kk) (js_sort l) = filter (fun r => spec_key r = kk) l.
Proof.
  intros Hl. unfold js_sort. destruct (length l <? 64)%nat.
  - by apply v8_sort_short_props.
  - by apply stable_sort_filter.
Qed.

(** ** What the rank and allocation stages pass through *)

Lemma assign_rank_from_core k l : map core (assign_rank_from k l) = map core l.
Proof. revert k; induction l as [|s l IH]; intros k; simpl; [done|]. by rewrite IH. Qed.

Lemma allocate_core pq u l : map core (fst (allocate pq u l)) = map core l.
Proof.
  pose proof (f_equal (map core) (allocate_strip pq u l)) as H.
  by rewrite !map_map in H.
Qed.

Lemma rankStudents_core students plans :
  map core (rankStudents students plans) = map core (js_sort (map process students)).
Proof.
  unfold rankStudents, ranked, assign_rank.
  by rewrite allocate_core, assign_rank_from_core.
Qed.

Lemma rankStudents_base students plans :
  map rs_base (rankStudents students plans) = map rs_base (js_sort (map process students)).
Proof.
  pose proof (f_equal (map fst) (rankStudents_core students plans)) as H.
  by rewrite !map_map in H.
Qed.

Lemma rankStudents_base_perm students plans :
  Permutation (map rs_base (rankStudents students plans)) students.
Proof.
  rewrite rankStudents_base, js_sort_perm, map_map. simpl. apply Permutation_refl'.
  apply map_id.
Qed.


Lemma ranked_ok_core a b : core a = core b -> ranked_ok a -> ranked_ok b.
Proof. destruct a, b. unfold core. simpl. by intros [= -> ->]. Qed.




Lemma process_ok s : has_all_scores s -> ranked_ok (process s).
Proof. by split. Qed.

Lemma sorted_processed_ok students :
  Forall has_all_scores students -> Forall ranked_ok (js_sort (map process students)).
Proof.
  intros H. eapply Permutation_Forall; [symmetry; apply js_sort_perm|].
  apply Forall_fmap. eapply Forall_impl; [exact H|]. apply process_ok.
Qed.


(** ** Frame reasoning on the heap reading *)

Module HeapFrame.
Import Heap.

Lemma frames_weaken {A} n (m : M A) (Q Q' : A -> Prop) :
  frames n m Q -> (forall x, Q x -> Q' x) -> frames n m Q'.
Proof. intros Hm HQ h x h' Hn E. destruct (Hm h x h' Hn E) as (? & ? & ?). auto. Qed.

Lemma frames_ret {A} n (x : A) : frames n (mret x) (fun _ => True).
Proof. intros h y h' _ E. injection E as <- <-. auto. Qed.

Lemma frames_crash {A} n (Q : A -> Prop) : frames n crash Q.
Proof. by intros h y h' _ E. Qed.

Lemma frames_bind {A B} n (m : M A) (k : A -> M B) (Q : A -> Prop) (R : B -> Prop) :
  frames n m Q -> (forall x, Q x -> frames n (k x) R) -> frames n (x ← m; k x) R.
Proof.
  intros Hm Hk h y h' Hn E. unfold mbind, M_bind in E.
  destruct (m h) as [[x h1]|] eqn:E1; [|done].
  destruct (Hm h x h1 Hn E1) as (Hf1 & Hle1 & HQ).
  destruct (Hk x HQ h1 y h' ltac:(lia) E) as (Hf2 & Hle2 & HR).
  split; [|split; [lia|done]].
  intros l Hl. rewrite Hf2, Hf1 by done. done.
Qed.

Lemma frames_alloc n v : frames n (alloc v) (fun l => (n <= l)%nat).
Proof.
  intros h l h' Hn E. injection E as <- <-. simpl.
  split; [|split; lia]. intros k Hk. apply lookup_insert_ne. lia.
Qed.

Lemma frames_read n l : frames n (read l) (fun _ => True).
Proof.
  intros h v h' _ E. unfold read in E.
  destruct (mem h !! l); [|done]. injection E as <- <-. auto.
Qed.

Lemma frames_write n l v : (n <= l)%nat -> frames n (write l v) (fun _ => True).
Proof.
  intros Hl h x h' _ E. unfold write in E. revert E.
  case_match; intros E; [|discriminate]. injection E as _ <-. simpl.
  split; [|split; lia]. intros k Hk. apply lookup_insert_ne. lia.
Qed.

Lemma frames_readers n l :
  frames n (read_array l) (fun _ => True) /\ frames n (read_student l) (fun _ => True) /\
  frames n (read_ranked l) (fun _ => True) /\ frames n (read_plan l) (fun _ => True) /\
  frames n (read_dict l) (fun _ => True).
Proof.
  refine (conj _ (conj _ (conj _ (conj _ _))));
    apply (frames_bind _ _ _ (fun _ => True)); try apply frames_read;
    intros [] _; simpl; first [apply frames_ret | apply frames_crash].
Qed.

Lemma frames_mapM {A B} n (f : A -> M B) l :
  (forall x, frames n (f x) (fun _ => True)) -> frames n (mapM f l) (fun _ => True).
Proof.
  intros Hf. induction l as [|x l IH]; simpl; [apply frames_ret|].
  eapply frames_bind; [apply Hf|]. intros y _.
  eapply frames_bind; [apply IH|]. intros ys _. apply frames_ret.
Qed.

Lemma frames_mapiM {A B} n (f : nat -> A -> M B) k l :
  (forall i x, frames n (f i x) (fun _ => True)) -> frames n (mapiM f k l) (fun _ => True).
Proof.
  intros Hf. revert k; induction l as [|x l IH]; intros k; simpl; [apply frames_ret|].
  eapply frames_bind; [apply Hf|]. intros y _.
  eapply frames_bind; [apply IH|]. intros ys _. apply frames_ret.
Qed.

Lemma frames_pick_h n qu pq prefs :
  (n <= qu)%nat -> frames n (pick_h qu pq prefs) (fun _ => True).
Proof.
  intros Hqu. induction prefs as [|m rest IH]; simpl; [apply frames_ret|].
  eapply frames_bind; [apply frames_readers|]. intros d _.
  destruct (d !! m); [|done].
  eapply frames_bind; [apply frames_readers|]. intros u _.
  destruct (u !! m); [|done]. destruct (_ <? _); [|done].
  eapply frames_bind; [by apply frames_write|]. intros _ _. apply frames_ret.
Qed.

Lemma frames_rankStudents_h n students plans :
  frames n (rankStudents_h students plans) (fun l => (n <= l)%nat).
Proof.
  unfold rankStudents_h.
  eapply frames_bind; [apply frames_readers|]; intros sls _.
  eapply frames_bind.
  { apply frames_mapM. intros l. eapply frames_bind; [apply frames_readers|]. intros s _.
    eapply frames_weaken; [apply frames_alloc|done]. }
  intros objs _. eapply frames_bind; [apply frames_alloc|]; intros processed Hp.
  eapply frames_bind; [apply frames_readers|]; intros ls _.
  eapply frames_bind; [apply frames_mapM; intros; apply frames_readers|]; intros rs _.
  eapply frames_bind; [by apply frames_write|]; intros _ _.
  eapply frames_bind; [apply frames_readers|]; intros ls2 _.
  eapply frames_bind.
  { apply frames_mapiM. intros i l. eapply frames_bind; [apply frames_readers|]. intros r _.
    eapply frames_weaken; [apply frames_alloc|done]. }
  intros objs2 _. eapply frames_bind; [apply frames_alloc|]; intros processed2 _.
  eapply frames_bind; [apply frames_alloc|]; intros quotaUsage Hqu.
  eapply frames_bind; [apply frames_readers|]; intros pls _.
  eapply frames_bind.
  { apply frames_mapM. intros pl. eapply frames_bind; [apply frames_readers|]. intros p _.
    eapply frames_bind; [apply frames_readers|]. intros d _. by apply frames_write. }
  intros _ _. eapply frames_bind; [apply frames_alloc|]; intros planQuotas Hpq.
  eapply frames_bind.
  { apply frames_mapM. intros pl. eapply frames_bind; [apply frames_readers|]. intros p _.
    eapply frames_bind; [apply frames_readers|]. intros d _. by apply frames_write. }
  intros _ _. eapply frames_bind; [apply frames_readers|]; intros ls3 _.
  eapply frames_bind.
  { apply frames_mapM. intros l. eapply frames_bind; [apply frames_readers|]. intros st _.
    eapply frames_bind; [by apply frames_pick_h|]. intros a _.
    eapply frames_weaken; [apply frames_alloc|done]. }
  intros out _. apply frames_alloc.
Qed.
End HeapFrame.

Lemma ranked_strip students : map strip (ranked students) = ranked students.
Proof.
  unfold ranked, assign_rank.
  assert (H : Forall (fun r => qualifiedStream r = None) (js_sort (map process students))).
  { eapply Permutation_Forall; [symmetry; apply js_sort_perm|].
    apply Forall_fmap, Forall_forall. done. }
  generalize 0%nat. induction H as [|r l Hr _ IH]; intros k; [done|].
  simpl. rewrite IH. unfold strip. simpl. by rewrite Hr.
Qed.

(** * Claims *)

(** C1 (corrected).  Capacity invariant, for plans whose names are unique
    (the spec's precondition): the number of students whose
    [qualifiedStream] is a plan's name is at most that plan's quota. *)
Theorem C1_capacity_unique_names (students : list Student) (plans : list StudyPlan)
    (p : StudyPlan) :
  NoDup (map name plans) -> In p plans -> 0 <= quota p ->
  Z.of_nat (count_assigned (name p) (rankStudents students plans)) <= quota p.
Proof.
  intros Hnd Hin Hq.
  destruct (decide (name p = "__proto__")) as [Hp|Hp].
  - rewrite Hp, rankStudents_count_unconfigured by apply planQuotas_proto. lia.
  - pose proof (rankStudents_count_bound students plans (name p) (quota p)
                  (planQuotas_unique plans p Hnd Hin Hp)). lia.
Qed.

Lemma C1_witness :
  Z.of_nat (count_assigned "X" (rankStudents [s2; s1] [planX1; planY0])) <= 1.
Proof.
  apply (C1_capacity_unique_names [s2; s1] [planX1; planY0] planX1).
  - vm_compute. repeat constructor; set_solver.
  - simpl. by left.
  - vm_compute. discriminate.
Defined.

(** C1 as stated fails when two definitions share a name: two students are
    placed in "X" although one definition of "X" has capacity 1. *)
Lemma C1_counterexample :
  In planX1 [planX1; planX5] /\ Forall (fun p => 0 <= quota p) [planX1; planX5] /\
  quota planX1 = 1 /\ count_assigned "X" (rankStudents [s1; s2] [planX1; planX5]) = 2%nat.
Proof.
  split; [by left|]. split; [repeat constructor; vm_compute; discriminate|].
  split; [done|]. vm_compute. reflexivity.
Qed.




(** C3 (code_bug).  [calculateTotal] sums the five hard-coded keys and
    ignores its [subjects] parameter: with a sixth configured subject the
    total leaves it out, and with a configured subject removed the missing
    key makes the total NaN instead of counting 0. *)
Theorem C3_total_not_configured_sum :
  map totalScore (rankStudents [s6] []) = [JN 50] /\ configured_total subjects6 s6 = 60 /\
  map totalScore (rankStudents [s4] []) = [JNaN] /\ configured_total subjects4 s4 = 40.
Proof. vm_compute. repeat split. Qed.


Ltac all_scores := unfold has_all_scores, subject_keys;
  repeat (apply Forall_cons; split); try apply Forall_nil; eexists; vm_compute; reflexivity.



(** C5 (confirmed).  The ranks of the output are 1, ..., N in order, each
    once: rank is the 1-based position; an empty input gives an empty
    output. *)
Theorem C5_ranks_positional (students : list Student) (plans : list StudyPlan) :
  map rank (rankStudents students plans) = seq 1 (length students) /\
  NoDup (map rank (rankStudents students plans)) /\
  rankStudents [] plans = [].
Proof.
  pose proof (rankStudents_rank students plans) as Hr.
  split; [done|]. split; [|done].
  rewrite Hr. apply NoDup_ListNoDup, seq_NoDup.
Qed.







(** C8 (confirmed).  A preference naming no configured plan is skipped and
    touches no counter; and a student all of whose preferences are unknown
    or full when the student is processed (in particular an empty list)
    gets no stream and consumes no capacity, whatever room other plans
    have. *)
Theorem C8_unknown_or_full_unassigned (students : list Student) (plans : list StudyPlan)
    (i : nat) (r : RankedStudent) :
  (forall pq n rest u, pq !! n = None -> pick pq (n :: rest) u = pick pq rest u) /\
  (rankStudents students plans !! i = Some r ->
   (forall n, In n (preferredStreams (rs_base r)) ->
      match planQuotasOf plans !! n with
      | Some q => q <= Z.of_nat (count_assigned n (take i (rankStudents students plans)))
      | None => True
      end) ->
   qualifiedStream r = None /\ usage_at plans students (S i) = usage_at plans students i).
Proof.
  split.
  - intros pq n rest u Hn. simpl. by rewrite Hn.
  - intros Hi Hblocked.
    destruct (rankStudents_lookup _ _ _ _ Hi) as (r0 & Hr0 & Hr).
    assert (Hp : pick (planQuotasOf plans) (preferredStreams (rs_base r0))
                   (usage_at plans students i) = (None, usage_at plans students i)).
    { apply pick_blocked. intros n Hn.
      rewrite Hr in Hblocked. specialize (Hblocked n Hn). simpl in Hblocked.
      destruct (planQuotasOf plans !! n) as [q|] eqn:Hq; [|done].
      intros c Hc. rewrite (usage_at_configured _ _ _ _ q Hq) in Hc.
      injection Hc as <-. done. }
    split.
    + rewrite Hr. simpl. by rewrite Hp.
    + unfold usage_at in Hp |- *. rewrite (take_S_r _ _ _ Hr0), allocate_app.
      destruct (allocate _ _ (take i (ranked students))) as [o1 u1] eqn:E.
      simpl in Hp |- *. rewrite Hp. done.
Qed.

Lemma C8_witness :
  (forall pq n rest u, pq !! n = None -> pick pq (n :: rest) u = pick pq rest u) /\
  qualifiedStream (mkRanked sZ (JN 300) 1 None) = None /\
  usage_at [planX1] [sZ] 1 = usage_at [planX1] [sZ] 0.
Proof.
  destruct (C8_unknown_or_full_unassigned [sZ] [planX1] 0 (mkRanked sZ (JN 300) 1 None))
    as [Hskip Hrun].
  split; [exact Hskip|]. apply Hrun.
  - vm_compute. reflexivity.
  - intros n [<-|[]]. vm_compute. exact I.
Defined.

(** C10 (confirmed).  With several definitions of one name, the last one
    is the [planQuotas] entry (no entry is stored for the name
    "__proto__"); dropping the earlier definitions leaves the result
    unchanged; and if its quota is not negative, the students given that
    name, all definitions counted together, are at most that quota. *)
Theorem C10_last_definition_governs (students : list Student)
    (pre : list StudyPlan) (p : StudyPlan) (suf : list StudyPlan) :
  ~ In (name p) (map name suf) ->
  planQuotasOf (pre ++ p :: suf) !! name p =
    (if bool_decide (name p = "__proto__") then None else Some (quota p)) /\
  rankStudents students (pre ++ p :: suf) =
    rankStudents students (filter (fun q => name q <> name p) pre ++ p :: suf) /\
  (0 <= quota p ->
   Z.of_nat (count_assigned (name p) (rankStudents students (pre ++ p :: suf))) <= quota p).
Proof.
  intros Hn. split; [|split].
  - case_bool_decide as Hp; [rewrite Hp; apply planQuotas_proto|].
    apply planQuotas_last; [by rewrite list_elem_of_In|done].
  - unfold rankStudents. rewrite !planQuotasOf_configured, !initQuotaUsage_configured.
    unfold configured_quotas.
    rewrite (fold_plans_drop_earlier quota), (fold_plans_drop_earlier (fun _ => 0)). done.
  - intros H0. destruct (decide (name p = "__proto__")) as [Hp|Hp].
    + rewrite Hp, rankStudents_count_unconfigured by apply planQuotas_proto. lia.
    + assert (Hq : planQuotasOf (pre ++ p :: suf) !! name p = Some (quota p))
        by (apply planQuotas_last; [by rewrite list_elem_of_In|done]).
      pose proof (rankStudents_count_bound students _ _ _ Hq). lia.
Qed.

Lemma C10_witness :
  planQuotasOf ([] ++ planX5 :: [planX1]) !! name planX1 =
    (if bool_decide (name planX1 = "__proto__") then None else Some (quota planX1)) /\
  rankStudents [s1; s2] ([] ++ planX5 :: [planX1]) =
    rankStudents [s1; s2] (filter (fun q => name q <> name planX1) [planX5] ++ planX1 :: []) /\
  (0 <= 1 -> Z.of_nat (count_assigned "X" (rankStudents [s1; s2] ([planX5] ++ planX1 :: []))) <= 1).
Proof.
  apply (C10_last_definition_governs [s1; s2] [planX5] planX1 []). simpl. tauto.
Defined.

(** C9 (confirmed).  On the heap reading, [rankStudents] changes no object
    that existed before the call (the students array, the student objects,
    the plans array and plan objects) and returns a newly allocated array;
    and the allocation stage only adds [qualifiedStream]: with it cleared,
    the output is exactly the ranked sequence, whose student fields are
    the input students up to order. *)
Theorem C9_no_mutation_fields_carried (h : Heap.heap) (sarr parr res : nat) (h' : Heap.heap)
    (students : list Student) (plans : list StudyPlan) :
  Heap.heap_wf h -> Heap.rankStudents_h sarr parr h = Some (res, h') ->
  (forall k v, Heap.mem h !! k = Some v -> Heap.mem h' !! k = Some v) /\
  Heap.mem h !! res = None /\
  map strip (rankStudents students plans) = ranked students /\
  Permutation (map rs_base (rankStudents students plans)) students.
Proof.
  intros Hwf Hrun.
  destruct (HeapFrame.frames_rankStudents_h (Heap.next h) sarr parr h res h' (le_n _) Hrun)
    as (Hsame & _ & Hres).
  split; [|split; [|split]].
  - intros k v Hk. rewrite Hsame; [done|].
    destruct (decide (k < Heap.next h)%nat); [done|].
    rewrite Hwf in Hk by lia. done.
  - by apply Hwf.
  - unfold rankStudents. by rewrite allocate_strip, ranked_strip.
  - apply rankStudents_base_perm.
Qed.

Lemma C9_witness :
  (forall k v, Heap.mem Heap.sample_heap !! k = Some v -> Heap.mem Heap.sample_after !! k = Some v) /\
  Heap.mem Heap.sample_heap !! 16%nat = None /\
  map strip (rankStudents [s2; s1] [planX1; planY0]) = ranked [s2; s1] /\
  Permutation (map rs_base (rankStudents [s2; s1] [planX1; planY0])) [s2; s1].
Proof.
  apply (C9_no_mutation_fields_carried Heap.sample_heap 2%nat 5%nat 16%nat Heap.sample_after).
  - intros k Hk. unfold Heap.sample_heap in *. simpl in *.
    rewrite !lookup_insert_ne by lia. apply lookup_empty.
  - vm_compute. reflexivity.
Defined.

(** * Further properties: the callers and views of rankStudents *)
Lemma findIndex_Some {A} (p : A -> bool) l k :
  findIndex p l = Some k -> exists x, l !! k = Some x /\ p x = true.
Proof.
  revert k; induction l as [|x l IH]; intros k; simpl; [done|].
  destruct (p x) eqn:Hp.
  - intros [= <-]. by exists x.
  - destruct (findIndex p l) as [k'|] eqn:E; simpl; [|done]. intros [= <-]. by apply IH.
Qed.

Lemma findIndex_None {A} (p : A -> bool) l x :
  findIndex p l = None -> In x l -> p x = false.
Proof.
  induction l as [|y l IH]; simpl; [done|].
  destruct (p y) eqn:Hp; [done|].
  destruct (findIndex p l); simpl; [done|]. intros _ [->|H]; auto.
Qed.

(** With unique ids, a merge step replaces the record with the same id or
    appends the new one. *)
Lemma merge_student_eq l t :
  NoDup (map id l) ->
  merge_student l t =
    if bool_decide (id t ∈ map id l)
    then map (fun s => if bool_decide (id s = id t) then t else s) l
    else l ++ [t].
Proof.
  intros Hnd. unfold merge_student.
  destruct (findIndex _ l) as [k|] eqn:E.
  - destruct (findIndex_Some _ _ _ E) as (x & Hk & Hx). apply bool_decide_eq_true in Hx.
    rewrite bool_decide_true; [|apply list_elem_of_In, in_map_iff; exists x;
      split; [done|]; eapply list_elem_of_In, list_elem_of_lookup_2; eauto].
    apply list_eq. intros j. rewrite list_lookup_fmap.
    destruct (decide (j = k)) as [->|Hjk].
    + rewrite list_lookup_insert, decide_True by (split; [done|eapply lookup_lt_Some; eauto]).
      rewrite Hk. simpl. by rewrite bool_decide_true.
    + rewrite list_lookup_insert_ne by done. destruct (l !! j) as [y|] eqn:Hj; simpl; [|done].
      rewrite bool_decide_false; [done|]. intros Hy. apply Hjk.
      eapply NoDup_lookup; [exact Hnd| |]; rewrite list_lookup_fmap; [rewrite Hj|rewrite Hk]; simpl;
        [by rewrite Hy|by rewrite Hx].
  - rewrite bool_decide_false; [done|]. intros Hin. apply list_elem_of_In, in_map_iff in Hin as (x & Hx & Hin).
    pose proof (findIndex_None _ _ _ E Hin) as H. simpl in H. rewrite bool_decide_true in H; done.
Qed.

Lemma merge_student_ids l t :
  NoDup (map id l) -> NoDup (map id (merge_student l t)).
Proof.
  intros Hnd. rewrite merge_student_eq by done. case_bool_decide as Hin.
  - rewrite map_map.
    replace (map _ l) with (map id l); [done|]. apply map_ext_in. intros s _.
    by case_bool_decide.
  - rewrite map_app. simpl. apply NoDup_app. split; [done|]. split; [|apply NoDup_singleton].
    intros x Hx ->%list_elem_of_singleton. done.
Qed.

Lemma fold_merge_ids news l :
  NoDup (map id l) -> NoDup (map id (fold_left merge_student news l)).
Proof.
  revert l; induction news as [|t news IH]; intros l Hnd; simpl; [done|].
  apply IH, merge_student_ids, Hnd.
Qed.
Lemma last_by_id_snoc D t i :
  last_by_id (D ++ [t]) i = if bool_decide (id t = i) then Some t else last_by_id D i.
Proof. unfold last_by_id. by rewrite rev_app_distr. Qed.

Lemma last_by_id_id D i s : last_by_id D i = Some s -> id s = i.
Proof. unfold last_by_id. intros H. apply find_some in H as [_ H]. by case_bool_decide. Qed.

Lemma override_id D s : id (override D s) = id s.
Proof.
  unfold override. destruct (last_by_id D (id s)) eqn:E; [|done]. simpl. by eapply last_by_id_id.
Qed.

Lemma override_snoc D t s :
  override (D ++ [t]) s = if bool_decide (id s = id t) then t else override D s.
Proof.
  unfold override. rewrite last_by_id_snoc.
  by case_bool_decide; case_bool_decide; try congruence.
Qed.

Lemma ids_override D l : map id (map (override D) l) = map id l.
Proof. rewrite map_map. apply map_ext. apply override_id. Qed.

(** The state of [updatedList] after part of the batch: the stored rows,
    each at its place in its latest version, followed by one row per new
    id, in its latest version; ids stay unique. *)
Lemma fold_merge_inv old D :
  NoDup (map id old) ->
  NoDup (map id (fold_left merge_student D old)) /\
  (length old <= length (fold_left merge_student D old))%nat /\
  take (length old) (fold_left merge_student D old) = map (override D) old /\
  (forall s, In s (drop (length old) (fold_left merge_student D old)) <->
             ~ In (id s) (map id old) /\ last_by_id D (id s) = Some s).
Proof.
  intros Hold. induction D as [|t D IH] using rev_ind.
  - simpl. rewrite firstn_all, skipn_all. split; [done|]. split; [done|]. split.
    + symmetry. apply map_id.
    + intros s. split; [done|]. by intros [_ ?].
  - rewrite fold_left_app. simpl. set (C := fold_left merge_student D old) in *.
    destruct IH as (Hnd & Hlen & Htake & Hdrop).
    assert (HidsC : map id C = map id old ++ map id (drop (length old) C)).
    { rewrite <- (take_drop (length old) C) at 1. by rewrite map_app, Htake, ids_override. }
    rewrite merge_student_eq by done. case_bool_decide as Hin.
    + set (rep := fun s => if bool_decide (id s = id t) then t else s).
      assert (Hrep : forall s, id (rep s) = id s).
      { intros s. unfold rep. case_bool_decide; congruence. }
      split; [|split; [|split]].
      * replace (map id (map rep C)) with (map id C); [done|].
        rewrite map_map. apply map_ext. intros s. by rewrite Hrep.
      * by rewrite length_map.
      * rewrite firstn_map, Htake, map_map. apply map_ext. intros s.
        rewrite override_snoc. unfold rep. by rewrite override_id.
      * intros s. rewrite skipn_map, in_map_iff. split.
        -- intros (u & <- & Hu). apply Hdrop in Hu as [Hu1 Hu2].
           rewrite Hrep, last_by_id_snoc. unfold rep. case_bool_decide as E.
           ++ rewrite bool_decide_true by done. split; [congruence|done].
           ++ rewrite bool_decide_false by congruence. done.
        -- rewrite last_by_id_snoc. intros [Hs1 Hs2]. case_bool_decide as E.
           ++ injection Hs2 as <-.
              apply list_elem_of_In in Hin. rewrite HidsC in Hin. apply in_app_iff in Hin as [Hin|Hin];
                [contradiction|].
              apply in_map_iff in Hin as (u & Hu & Hin). exists u. split; [|done].
              unfold rep. by rewrite bool_decide_true.
           ++ exists s. split; [unfold rep; by rewrite bool_decide_false by congruence|].
              by apply Hdrop.
    + assert (Hne : forall s, In s old -> id s <> id t).
      { intros s Hs E. apply Hin, list_elem_of_In. rewrite HidsC. apply in_app_iff. left.
        apply in_map_iff. by exists s. }
      split; [|split; [|split]].
      * rewrite map_app. apply NoDup_app. split; [done|]. split; [|apply NoDup_singleton].
        intros x Hx ->%list_elem_of_singleton. done.
      * rewrite length_app. lia.
      * rewrite take_app_le by done. rewrite Htake. apply map_ext_in. intros s Hs.
        rewrite override_snoc. by rewrite bool_decide_false by auto.
      * intros s. rewrite drop_app_le by done. rewrite in_app_iff, Hdrop, last_by_id_snoc. simpl.
        split.
        -- intros [[Hs1 Hs2]|[<-|[]]].
           ++ rewrite bool_decide_false; [done|]. intros E. apply Hin, list_elem_of_In.
              rewrite HidsC, in_app_iff. right. apply in_map_iff. exists s. split; [congruence|].
              by apply Hdrop.
           ++ rewrite bool_decide_true by done. split; [|done].
              intros Hx. apply in_map_iff in Hx as (u & Hu & Hx). by apply (Hne u).
        -- intros [Hs1 Hs2]. case_bool_decide as E.
           ++ injection Hs2 as <-. by right; left.
           ++ by left.
Qed.
Lemma List_filter_all {A} (p : A -> bool) l :
  (forall x, In x l -> p x = true) -> List.filter p l = l.
Proof.
  induction l as [|x l IH]; intros H; simpl; [done|].
  rewrite H by (left; done). f_equal. apply IH. intros y Hy. apply H. by right.
Qed.

Lemma List_filter_map_comm {A B} (f : A -> B) (p : B -> bool) l :
  map f (List.filter (fun x => p (f x)) l) = List.filter p (map f l).
Proof. induction l as [|x l IH]; simpl; [done|]. destruct (p (f x)); simpl; by rewrite IH. Qed.

Lemma List_filter_perm {A} (p : A -> bool) l l' :
  Permutation l l' -> Permutation (List.filter p l) (List.filter p l').
Proof.
  induction 1; simpl; try done.
  - destruct (p x); [by constructor|done].
  - destruct (p x), (p y); try constructor; apply Permutation_refl.
  - by etrans.
Qed.

Lemma List_filter_none {A} (p : A -> bool) l :
  (forall x, In x l -> p x = false) -> List.filter p l = [].
Proof.
  induction l as [|x l IH]; intros H; simpl; [done|].
  rewrite H by (left; done). apply IH. intros y Hy. apply H. by right.
Qed.

Lemma filter_unique_id l x :
  NoDup (map id l) -> In x l -> List.filter (fun s => bool_decide (id s = id x)) l = [x].
Proof.
  induction l as [|y l IH]; simpl; [done|]. intros Hnd Hin. apply NoDup_cons in Hnd as [Hy Hnd].
  destruct Hin as [->|Hin].
  - rewrite bool_decide_true by done. f_equal. apply List_filter_none. intros z Hz.
    rewrite bool_decide_eq_false. intros E. apply Hy, list_elem_of_In, in_map_iff. by exists z.
  - rewrite bool_decide_false; [by apply IH|]. intros E. apply Hy, list_elem_of_In, in_map_iff.
    exists x. by split.
Qed.

Lemma last_by_id_in D t : In t D -> exists t', last_by_id D (id t) = Some t'.
Proof.
  intros Hin. unfold last_by_id. destruct (find _ (rev D)) as [t'|] eqn:E; [by exists t'|].
  exfalso. eapply find_none in E; [|rewrite <- in_rev; exact Hin]. simpl in E.
  by rewrite bool_decide_true in E.
Qed.

Lemma last_by_id_in_list D i t : last_by_id D i = Some t -> In t D.
Proof. unfold last_by_id. intros H. apply find_some in H as [H _]. by apply in_rev. Qed.
(** X1 (handleAddStudents).  Adding a batch keeps the ids of the list
    distinct, and a viewer's call leaves the list unchanged. *)
Theorem handleAddStudents_unique_ids isViewer students newStudents :
  NoDup (map id students) ->
  NoDup (map id (handleAddStudents isViewer students newStudents)) /\
  handleAddStudents true students newStudents = students.
Proof.
  intros H. split; [|done].
  unfold handleAddStudents. destruct isViewer; [done|]. by apply fold_merge_ids.
Qed.

Lemma handleAddStudents_unique_ids_witness :
  NoDup (map id [s1; s2]) /\
  (NoDup (map id (handleAddStudents false [s1; s2] [s2; tA; tA])) /\
   handleAddStudents true [s1; s2] [s2; tA; tA] = [s1; s2]).
Proof.
  split; [vm_compute; repeat constructor; set_solver|].
  apply handleAddStudents_unique_ids. vm_compute; repeat constructor; set_solver.
Defined.

(** X2 (handleAddStudents).  With distinct ids, the old students keep their
    positions, each replaced by the last batch entry with its id if there
    is one.  The rows after them are exactly the last batch entries of the
    ids that were not present before. *)
Theorem handleAddStudents_rows students newStudents :
  NoDup (map id students) ->
  take (length students) (handleAddStudents false students newStudents) =
    map (override newStudents) students /\
  (forall s, In s (drop (length students) (handleAddStudents false students newStudents)) <->
     ~ In (id s) (map id students) /\ last_by_id newStudents (id s) = Some s).
Proof.
  intros H. unfold handleAddStudents. destruct (fold_merge_inv students newStudents H) as (_ & _ & ? & ?).
  by split.
Qed.

(** X3 (handleAddStudents, then rankStudents).  When the stored ids are
    distinct, after a batch is added every id of the batch occurs exactly
    once in the ranking, and it carries the last batch entry with that
    id. *)
Theorem handleAddStudents_ranked_once students newStudents plans t :
  NoDup (map id students) -> In t newStudents ->
  exists t', last_by_id newStudents (id t) = Some t' /\
    map rs_base (List.filter (fun r => bool_decide (id (rs_base r) = id t))
                   (rankStudents (handleAddStudents false students newStudents) plans)) = [t'].
Proof.
  intros Hold Ht. destruct (last_by_id_in _ _ Ht) as [t' Ht'].
  pose proof (last_by_id_id _ _ _ Ht') as Hid.
  exists t'. split; [done|].
  destruct (fold_merge_inv students newStudents Hold) as (Hnd & Hlen & Htake & Hdrop).
  set (out := handleAddStudents false students newStudents).
  assert (Hin : In t' out).
  { unfold out, handleAddStudents. rewrite <- (take_drop (length students) (fold_left _ _ _)).
    apply in_app_iff. destruct (decide (id t ∈ map id students)) as [Hi|Hi].
    - left. rewrite Htake. apply list_elem_of_In, in_map_iff in Hi. destruct Hi as (s & Hs & Hi). apply in_map_iff. exists s.
      unfold override. rewrite Hs, Ht'. by split.
    - right. apply Hdrop. rewrite Hid. split; [|done]. by rewrite <- list_elem_of_In. }
  pose proof (List_filter_map_comm rs_base (fun s => bool_decide (id s = id t))
                (rankStudents out plans)) as E.
  cbv beta in E. rewrite E, <- Hid.
  assert (Hf : List.filter (fun s => bool_decide (id s = id t')) out = [t'])
    by (apply filter_unique_id; [exact Hnd|exact Hin]).
  apply Permutation_length_1_inv. rewrite <- Hf. symmetry.
  apply List_filter_perm, rankStudents_base_perm.
Qed.
(** X4 (handleEditStudent).  When the edited id is present in a list with
    distinct ids, the result has distinct ids exactly when the new id is
    not the id of another student: editing never checks for that. *)
Theorem handleEditStudent_unique_ids students updatedStudent originalId :
  NoDup (map id students) ->
  In (or_id originalId (id updatedStudent)) (map id students) ->
  NoDup (map id (handleEditStudent false students updatedStudent originalId)) <->
  ~ In (id updatedStudent)
      (map id (List.filter (fun s => negb (bool_decide (id s = or_id originalId (id updatedStudent))))
                 students)).
Proof.
  unfold handleEditStudent. set (key := or_id originalId (id updatedStudent)).
  intros Hnd Hk. apply in_map_iff in Hk as (s0 & Hs0 & Hin).
  apply in_split in Hin as (pre & suf & ->).
  rewrite map_app in Hnd. simpl in Hnd.
  assert (H1 : NoDup (id s0 :: map id pre ++ map id suf)) by (rewrite Permutation_middle; exact Hnd).
  apply NoDup_cons in H1 as [Hkey Hnd']. rewrite Hs0 in Hkey.
  assert (Hpre : forall s, In s pre -> id s <> key).
  { intros s Hs E. apply Hkey, list_elem_of_In, in_app_iff. left. apply in_map_iff. by exists s. }
  assert (Hsuf : forall s, In s suf -> id s <> key).
  { intros s Hs E. apply Hkey, list_elem_of_In, in_app_iff. right. apply in_map_iff. by exists s. }
  rewrite map_app. simpl. rewrite bool_decide_true by done.
  rewrite (map_ext_in _ (fun s => s) pre), (map_ext_in _ (fun s => s) suf), !map_id;
    try (intros s Hs; rewrite bool_decide_false; auto).
  rewrite List.filter_app. simpl. rewrite (bool_decide_true (id s0 = key)) by done. simpl.
  rewrite !List_filter_all; try (intros s Hs; rewrite bool_decide_false; auto).
  rewrite !map_app. simpl. rewrite <- Permutation_middle, NoDup_cons, <- list_elem_of_In. tauto.
Qed.
Lemma StronglySorted_filter {A} (R : A -> A -> Prop) (P : A -> Prop) `{!forall x, Decision (P x)} l :
  StronglySorted R l -> StronglySorted R (filter P l).
Proof.
  induction 1 as [|x l Hs IH Hall]; [constructor|].
  rewrite filter_cons. case_decide; [|done]. constructor; [done|].
  rewrite Forall_forall in *. intros y Hy%list_elem_of_filter. apply Hall, Hy.
Qed.

Lemma filter_key_nonempty (l : list RankedStudent) kk y rest :
  filter (fun r => spec_key r = kk) l = y :: rest -> spec_key y = kk /\ In y l.
Proof.
  intros H. assert (Hy : y ∈ filter (fun r => spec_key r = kk) l) by (rewrite H; left).
  apply list_elem_of_filter in Hy as [? ?%list_elem_of_In]. done.
Qed.

(** Two lists sorted by the ranking keys that agree on every group of equal
    keys are equal. *)
Lemma sorted_unique l1 l2 :
  StronglySorted not_behind l1 -> StronglySorted not_behind l2 ->
  (forall kk, filter (fun r => spec_key r = kk) l1 = filter (fun r => spec_key r = kk) l2) ->
  l1 = l2.
Proof.
  revert l2; induction l1 as [|x r1 IH]; intros l2 S1 S2 Hf.
  - destruct l2 as [|y r2]; [done|]. specialize (Hf (spec_key y)).
    rewrite filter_cons, decide_True in Hf by done. done.
  - destruct l2 as [|y r2].
    { specialize (Hf (spec_key x)). rewrite filter_cons, decide_True in Hf by done. done. }
    apply StronglySorted_inv in S1 as [S1 F1]. apply StronglySorted_inv in S2 as [S2 F2].
    rewrite Forall_forall in F1, F2.
    assert (Hxy : lex_gt (spec_key y) (spec_key x) = false).
    { specialize (Hf (spec_key y)). rewrite (filter_cons _ y), decide_True in Hf by done.
      apply filter_key_nonempty in Hf as [_ Hin].
      destruct Hin as [<-|Hin]; [apply lex_gt_irrefl|by apply F1, list_elem_of_In]. }
    assert (Hyx : lex_gt (spec_key x) (spec_key y) = false).
    { specialize (Hf (spec_key x)). rewrite (filter_cons _ x), decide_True in Hf by done.
      symmetry in Hf. apply filter_key_nonempty in Hf as [_ Hin].
      destruct Hin as [<-|Hin]; [apply lex_gt_irrefl|by apply F2, list_elem_of_In]. }
    assert (Hk : spec_key x = spec_key y) by (apply lex_gt_total; [done|done|done]).
    pose proof (Hf (spec_key x)) as Hx.
    rewrite !filter_cons, !decide_True in Hx by done. injection Hx as <- Htl.
    f_equal. apply IH; [done|done|]. intros kk.
    destruct (decide (spec_key x = kk)) as [<-|Hne]; [done|].
    specialize (Hf kk). rewrite !filter_cons_False in Hf by congruence. done.
Qed.

Lemma map_process_filter (p : Student -> bool) l :
  map process (List.filter p l) = filter (fun r => p (rs_base r) = true) (map process l).
Proof.
  induction l as [|s l IH]; simpl; [done|]. rewrite filter_cons. simpl.
  case_decide as H; destruct (p s); simpl in *; try congruence; by rewrite IH.
Qed.

Lemma map_base_filter (p : Student -> bool) l :
  map rs_base (filter (fun r => p (rs_base r) = true) l) = List.filter p (map rs_base l).
Proof.
  induction l as [|r l IH]; simpl; [done|]. rewrite filter_cons.
  case_decide as H; destruct (p (rs_base r)); simpl in *; try congruence; by rewrite IH.
Qed.

Lemma filter_comm_key (Q : RankedStudent -> Prop) `{!forall x, Decision (Q x)} kk (l : list RankedStudent) :
  filter (fun r => spec_key r = kk) (filter Q l) = filter Q (filter (fun r => spec_key r = kk) l).
Proof. rewrite !list_filter_filter. apply list_filter_iff. tauto. Qed.

Lemma Forall_List_filter {A} (P : A -> Prop) (p : A -> bool) l :
  Forall P l -> Forall P (List.filter p l).
Proof. induction 1; simpl; [constructor|]. destruct (p x); [by constructor|done]. Qed.

(** Sorting commutes with removing students, for students with every score. *)
Lemma js_sort_filter_comm (p : Student -> bool) l :
  Forall has_all_scores l ->
  js_sort (map process (List.filter p l)) =
  filter (fun r => p (rs_base r) = true) (js_sort (map process l)).
Proof.
  intros Hl. assert (Hok : forall l', Forall has_all_scores l' -> Forall ranked_ok (map process l')).
  { intros l' Hl'. apply Forall_fmap. eapply Forall_impl; [exact Hl'|]. apply process_ok. }
  assert (Hokf : Forall ranked_ok (map process (List.filter p l)))
    by (apply Hok, Forall_List_filter, Hl).
  apply sorted_unique.
  - by apply js_sort_sorted.
  - apply StronglySorted_filter, js_sort_sorted, Hok, Hl.
  - intros kk. rewrite js_sort_filter by done.
    rewrite filter_comm_key, js_sort_filter by (apply Hok, Hl).
    by rewrite map_process_filter, filter_comm_key.
Qed.

Lemma List_filter_lookup {A} (p : A -> bool) l k x :
  List.filter p l !! k = Some x -> exists k', (k <= k')%nat /\ l !! k' = Some x.
Proof.
  revert k; induction l as [|y l IH]; intros k; simpl; [done|].
  destruct (p y).
  - destruct k as [|k]; simpl.
    + intros [= ->]. by exists 0%nat.
    + intros H. destruct (IH k H) as (k' & ? & ?). exists (S k'). split; [lia|done].
  - intros H. destruct (IH k H) as (k' & ? & ?). exists (S k'). split; [lia|done].
Qed.

Lemma rankStudents_lookup_rank students plans k r :
  rankStudents students plans !! k = Some r -> rank r = S k.
Proof.
  intros H. pose proof (rankStudents_rank students plans) as Hr.
  assert (Hk : map rank (rankStudents students plans) !! k = Some (rank r))
    by (rewrite list_lookup_fmap, H; done).
  rewrite Hr, lookup_seq in Hk. destruct Hk as [Hk _]. lia.
Qed.

(** X5 (handleDeleteStudent, then rankStudents).  When every student
    carries the five scores, deleting a student removes that id's rows
    from the ranking, keeps the others in the same order, and never moves
    any remaining student to a worse rank. *)
Theorem handleDeleteStudent_ranking students plans i :
  Forall has_all_scores students ->
  map rs_base (rankStudents (handleDeleteStudent false students i) plans) =
    List.filter (fun s => negb (bool_decide (id s = i))) (map rs_base (rankStudents students plans)) /\
  (forall k r', rankStudents (handleDeleteStudent false students i) plans !! k = Some r' ->
     exists r, In r (rankStudents students plans) /\ rs_base r = rs_base r' /\
               (rank r' <= rank r)%nat).
Proof.
  intros Hl. unfold handleDeleteStudent.
  assert (Hb : map rs_base (rankStudents (List.filter (fun s => negb (bool_decide (id s = i))) students) plans) =
    List.filter (fun s => negb (bool_decide (id s = i))) (map rs_base (rankStudents students plans))).
  { rewrite !rankStudents_base, js_sort_filter_comm by done.
    pose proof (map_base_filter (fun s => negb (bool_decide (id s = i)))
                  (js_sort (map process students))) as E.
    cbv beta in E. exact E. }
  split; [exact Hb|]. intros k r' Hk.
  assert (Hm : map rs_base (rankStudents (List.filter (fun s => negb (bool_decide (id s = i))) students) plans)
               !! k = Some (rs_base r')) by (rewrite list_lookup_fmap, Hk; done).
  rewrite Hb in Hm. apply List_filter_lookup in Hm as (k' & Hkk & Hm).
  rewrite list_lookup_fmap in Hm. destruct (rankStudents students plans !! k') as [r|] eqn:E; [|done].
  injection Hm as Hm. exists r. split; [eapply list_elem_of_In, list_elem_of_lookup_2; eauto|].
  split; [done|]. rewrite (rankStudents_lookup_rank _ _ _ _ Hk), (rankStudents_lookup_rank _ _ _ _ E). lia.
Qed.
Lemma StronglySorted_snoc_inv {A} (R : A -> A -> Prop) l x :
  StronglySorted R (l ++ [x]) -> StronglySorted R l /\ Forall (fun y => R y x) l.
Proof.
  induction l as [|y l IH]; simpl; intros H; [split; constructor|].
  apply StronglySorted_inv in H as [H Hf]. destruct (IH H) as [H1 H2].
  apply Forall_app in Hf as [Hf1 Hf2]. inversion_clear Hf2.
  split; [by constructor|by constructor].
Qed.

Lemma StronglySorted_List_filter {A} (R : A -> A -> Prop) (p : A -> bool) l :
  StronglySorted R l -> StronglySorted R (List.filter p l).
Proof.
  induction 1 as [|x l Hs IH Hall]; simpl; [constructor|].
  destruct (p x); [|done]. constructor; [done|]. by apply Forall_List_filter.
Qed.

Lemma StronglySorted_weaken {A} (R R' : A -> A -> Prop) l :
  (forall a b, R a b -> R' a b) -> StronglySorted R l -> StronglySorted R' l.
Proof.
  intros HR. induction 1; constructor; [done|]. eapply Forall_impl; [eassumption|]. auto.
Qed.

Lemma sorted_of_seq {A} (f : A -> nat) l s :
  map f l = seq s (length l) -> StronglySorted (fun a b => (f a < f b)%nat) l.
Proof.
  revert s; induction l as [|x l IH]; intros s H; simpl in *; [constructor|].
  injection H as Hx Hl. constructor; [by eapply IH|].
  apply Forall_forall. intros y Hy%list_elem_of_In.
  assert (Hin : In (f y) (seq (S s) (length l))) by (rewrite <- Hl; by apply in_map).
  apply in_seq in Hin. lia.
Qed.

Lemma rankStudents_sorted students plans :
  StronglySorted (fun a b => (rank a < rank b)%nat) (rankStudents students plans).
Proof.
  apply (sorted_of_seq rank _ 1). rewrite rankStudents_rank.
  pose proof (f_equal length (rankStudents_rank students plans)) as H.
  rewrite length_map, length_seq in H. by rewrite H.
Qed.

Section SortBy.
Context {A : Type}.
Implicit Types (cmp : A -> A -> Z) (l : list A).

Lemma sort_by_app cmp l x : sort_by cmp (l ++ [x]) = insert_by cmp x (sort_by cmp l).
Proof. unfold sort_by. by rewrite fold_left_app. Qed.

Lemma insert_by_perm cmp x l : Permutation (insert_by cmp x l) (x :: l).
Proof.
  induction l as [|y l IH]; simpl; [done|].
  destruct (cmp x y <? 0); [done|]. rewrite IH. apply perm_swap.
Qed.

Lemma sort_by_perm cmp l : Permutation (sort_by cmp l) l.
Proof.
  induction l as [|x l IH] using rev_ind; [done|].
  rewrite sort_by_app, insert_by_perm, IH. apply Permutation_cons_append.
Qed.

Variable key : A -> Z.

Lemma insert_by_sorted cmp x l :
  (forall a b, cmp a b = key a - key b) ->
  StronglySorted (fun a b => key a <= key b) l ->
  StronglySorted (fun a b => key a <= key b) (insert_by cmp x l).
Proof.
  intros Hc. induction l as [|y l IH]; intros Hs; simpl.
  - repeat constructor.
  - apply StronglySorted_inv in Hs as [Hs Hall]. rewrite Hc.
    destruct (Z.ltb_spec (key x - key y) 0).
    + constructor; [by constructor|]. constructor; [lia|].
      eapply Forall_impl; [exact Hall|]. simpl. lia.
    + constructor; [by apply IH|]. eapply Permutation_Forall; [symmetry; apply insert_by_perm|].
      constructor; [lia|done].
Qed.

Lemma sort_by_sorted cmp l :
  (forall a b, cmp a b = key a - key b) ->
  StronglySorted (fun a b => key a <= key b) (sort_by cmp l).
Proof.
  intros Hc. induction l as [|x l IH] using rev_ind; [constructor|].
  rewrite sort_by_app. by apply insert_by_sorted.
Qed.

Lemma insert_by_filter cmp x l z :
  (forall a b, cmp a b = key a - key b) ->
  StronglySorted (fun a b => key a <= key b) l ->
  filter (fun a => key a = z) (insert_by cmp x l) =
  filter (fun a => key a = z) l ++ filter (fun a => key a = z) [x].
Proof.
  intros Hc. induction l as [|y l IH]; intros Hs; simpl; [done|].
  apply StronglySorted_inv in Hs as [Hs Hall]. rewrite Hc.
  destruct (Z.ltb_spec (key x - key y) 0).
  - rewrite filter_cons. case_decide as Hz.
    + rewrite (filter_cons _ y), decide_False by lia.
      rewrite filter_none; [by rewrite (filter_cons_True _ x)|].
      intros w Hw. rewrite Forall_forall in Hall. specialize (Hall w (proj2 (list_elem_of_In _ _) Hw)). lia.
    + rewrite (filter_cons_False _ x) by done. simpl. by rewrite app_nil_r.
  - rewrite !filter_cons. case_decide; simpl; by rewrite IH.
Qed.

Lemma sort_by_filter cmp l z :
  (forall a b, cmp a b = key a - key b) ->
  filter (fun a => key a = z) (sort_by cmp l) = filter (fun a => key a = z) l.
Proof.
  intros Hc. induction l as [|x l IH] using rev_ind; [done|].
  rewrite sort_by_app, insert_by_filter, IH, filter_app; [done|done|]. by apply sort_by_sorted.
Qed.

Lemma sort_by_id cmp l :
  (forall a b, cmp a b = key a - key b) ->
  StronglySorted (fun a b => key a < key b) l -> sort_by cmp l = l.
Proof.
  intros Hc. induction l as [|x l IH] using rev_ind; intros Hs; [done|].
  apply StronglySorted_snoc_inv in Hs as [Hs Hall].
  rewrite sort_by_app, IH by done. clear IH Hs.
  induction l as [|y l IH]; simpl; [done|]. inversion_clear Hall.
  rewrite Hc. destruct (Z.ltb_spec (key x - key y) 0); [lia|]. by rewrite IH.
Qed.

Lemma sort_by_rev cmp l :
  (forall a b, cmp a b = key b - key a) ->
  StronglySorted (fun a b => key a < key b) l -> sort_by cmp l = rev l.
Proof.
  intros Hc. induction l as [|x l IH] using rev_ind; intros Hs; [done|].
  apply StronglySorted_snoc_inv in Hs as [Hs Hall].
  rewrite sort_by_app, IH, rev_app_distr by done. simpl.
  destruct (rev l) as [|y l'] eqn:E; simpl; [done|].
  assert (Hy : In y l) by (apply in_rev; rewrite E; left; done).
  rewrite Forall_forall in Hall. specialize (Hall y (proj2 (list_elem_of_In _ _) Hy)).
  rewrite Hc. by destruct (Z.ltb_spec (key y - key x) 0); [|lia].
Qed.
End SortBy.
Lemma includes_empty s : includes s "" = true.
Proof. destruct s; reflexivity. Qed.

Lemma filteredStudents_perm toLowerCase rows fs fp st ss dir :
  Permutation (filteredStudents toLowerCase rows fs fp st ss dir)
              (List.filter (matchesRow toLowerCase fs fp st) rows).
Proof. unfold filteredStudents. simpl. repeat case_match; apply sort_by_perm. Qed.

Lemma List_filter_bool_decide {A} (P : A -> Prop) `{!forall x, Decision (P x)} l :
  List.filter (fun x => bool_decide (P x)) l = filter P l.
Proof.
  induction l as [|x l IH]; simpl; [done|]. rewrite filter_cons, IH.
  by case_bool_decide; case_decide.
Qed.

(** X6 (filteredStudents).  Sorting by TOTAL gives the filtered rows in
    rank order for DESC and in reverse rank order otherwise. *)
Theorem filteredStudents_rank_order toLowerCase students plans fs fp st dir :
  filteredStudents toLowerCase (rankStudents students plans) fs fp st "TOTAL" dir =
  if bool_decide (dir = "DESC")
  then List.filter (matchesRow toLowerCase fs fp st) (rankStudents students plans)
  else rev (List.filter (matchesRow toLowerCase fs fp st) (rankStudents students plans)).
Proof.
  assert (Hs : StronglySorted (fun a b => Z.of_nat (rank a) < Z.of_nat (rank b))
                 (List.filter (matchesRow toLowerCase fs fp st) (rankStudents students plans))).
  { apply StronglySorted_List_filter. eapply StronglySorted_weaken; [|apply rankStudents_sorted].
    simpl. lia. }
  unfold filteredStudents. simpl. case_bool_decide.
  - by apply (sort_by_id (fun r => Z.of_nat (rank r))).
  - by apply (sort_by_rev (fun r => Z.of_nat (rank r))).
Qed.

(** X7 (filteredStudents).  Filtering on one stream, with no preference
    filter and an empty search, shows exactly the students assigned to
    that stream, at most the stream's quota of them (none for a name with
    no plan). *)
Theorem filteredStudents_stream_rows toLowerCase students plans fs ss dir :
  toLowerCase "" = "" -> fs <> "ALL" ->
  Forall (fun r => qualifiedStream r = Some fs)
    (filteredStudents toLowerCase (rankStudents students plans) fs "ALL" "" ss dir) /\
  length (filteredStudents toLowerCase (rankStudents students plans) fs "ALL" "" ss dir) =
    count_assigned fs (rankStudents students plans) /\
  Z.of_nat (length (filteredStudents toLowerCase (rankStudents students plans) fs "ALL" "" ss dir)) <=
    match planQuotasOf plans !! fs with Some q => Z.max 0 q | None => 0 end.
Proof.
  intros Hlow Hfs.
  assert (Hm : List.filter (matchesRow toLowerCase fs "ALL" "") (rankStudents students plans) =
               filter (fun r => qualifiedStream r = Some fs) (rankStudents students plans)).
  { rewrite <- List_filter_bool_decide. apply List.filter_ext.
    intros r. unfold matchesRow. rewrite Hlow, !includes_empty. simpl.
    rewrite (bool_decide_false (fs = "ALL")) by done. simpl. by rewrite !andb_true_r. }
  pose proof (filteredStudents_perm toLowerCase (rankStudents students plans) fs "ALL" "" ss dir) as Hp.
  rewrite Hm in Hp. split; [|split].
  - eapply Permutation_Forall; [symmetry; exact Hp|]. apply Forall_forall.
    intros r Hr%list_elem_of_filter. apply Hr.
  - apply Permutation_length in Hp. by rewrite Hp.
  - apply Permutation_length in Hp. rewrite Hp. fold (count_assigned fs (rankStudents students plans)).
    destruct (planQuotasOf plans !! fs) as [q|] eqn:E.
    + by apply rankStudents_count_bound.
    + rewrite rankStudents_count_unconfigured by done. simpl. lia.
Qed.
(** X8 (filteredStudents).  Sorting by a subject gives a permutation of the
    filtered rows, ordered by that subject's score (a missing score counts
    as 0), with equal scores kept in rank order. *)
Theorem filteredStudents_subject_sort toLowerCase students plans fs fp st k dir :
  k <> "TOTAL" ->
  let v := filteredStudents toLowerCase (rankStudents students plans) fs fp st k dir in
  Permutation v (List.filter (matchesRow toLowerCase fs fp st) (rankStudents students plans)) /\
  StronglySorted (fun a b => if bool_decide (dir = "DESC")
                             then score0 (rs_base b) k <= score0 (rs_base a) k
                             else score0 (rs_base a) k <= score0 (rs_base b) k) v /\
  (forall z, StronglySorted (fun a b => (rank a < rank b)%nat)
               (filter (fun r => score0 (rs_base r) k = z) v)).
Proof.
  intros Hk v. split; [apply filteredStudents_perm|].
  set (rowsf := List.filter (matchesRow toLowerCase fs fp st) (rankStudents students plans)).
  assert (Hrs : StronglySorted (fun a b => (rank a < rank b)%nat) rowsf)
    by apply StronglySorted_List_filter, rankStudents_sorted.
  unfold v, filteredStudents. fold rowsf. rewrite (bool_decide_false (k = "TOTAL")) by done. simpl.
  case_bool_decide as Hd.
  - set (key := fun r : RankedStudent => - score0 (rs_base r) k).
    split.
    + eapply StronglySorted_weaken; [|apply (sort_by_sorted key)].
      * unfold key. simpl. lia.
      * intros a b. unfold key. lia.
    + intros z. rewrite (list_filter_iff _ (fun r => key r = - z)) by (intros r; unfold key; lia).
      rewrite (sort_by_filter key); [by apply StronglySorted_filter|].
      intros a b. unfold key. lia.
  - set (key := fun r : RankedStudent => score0 (rs_base r) k).
    split.
    + apply (sort_by_sorted key). intros a b. unfold key. lia.
    + intros z. fold (key). rewrite (sort_by_filter key); [by apply StronglySorted_filter|].
      intros a b. unfold key. lia.
Qed.

Lemma js_slice_nonneg {A} (l : list A) (s e : Z) :
  0 <= s <= e -> js_slice l s e = take (Z.to_nat (e - s)) (drop (Z.to_nat s) l).
Proof.
  intros Hse. unfold js_slice.
  destruct (Z.ltb_spec s 0); [lia|]. destruct (Z.ltb_spec e 0); [lia|].
  destruct (decide (s <= Z.of_nat (length l))).
  - rewrite (Z.min_l s) by lia. apply list_eq. intros i.
    assert (Hd : length (drop (Z.to_nat s) l) = (length l - Z.to_nat s)%nat)
      by apply length_drop.
    destruct (decide (i < Z.to_nat (e - s))%nat);
      destruct (decide (i < Z.to_nat (Z.min e (Z.of_nat (length l)) - s))%nat).
    + rewrite !lookup_take_lt by lia. done.
    + rewrite (lookup_take_ge _ (Z.to_nat (Z.min _ _ - s))) by lia. rewrite lookup_take_lt by lia.
      symmetry. apply lookup_ge_None_2. lia.
    + lia.
    + rewrite !lookup_take_ge by lia. done.
  - rewrite (Z.min_r s) by lia. rewrite (drop_ge l (Z.to_nat (Z.of_nat (length l)))) by lia.
    rewrite (drop_ge l (Z.to_nat s)) by lia. rewrite !take_nil. done.
Qed.

Lemma paginatedStudents_page {A} (l : list A) (p : Z) :
  1 <= p -> paginatedStudents l p = take 100 (drop (Z.to_nat ((p - 1) * 100)) l).
Proof.
  intros Hp. unfold paginatedStudents, ITEMS_PER_PAGE.
  rewrite js_slice_nonneg by lia. f_equal. lia.
Qed.

Lemma totalPages_bounds (n : nat) :
  0 <= totalPages n /\ Z.of_nat n <= 100 * totalPages n /\ 100 * totalPages n < Z.of_nat n + 100.
Proof.
  unfold totalPages, ceil_div, ITEMS_PER_PAGE.
  pose proof (Z.div_mod (- Z.of_nat n) 100 ltac:(lia)).
  pose proof (Z.mod_pos_bound (- Z.of_nat n) 100 ltac:(lia)). lia.
Qed.

Lemma concat_pages {A} (l : list A) (n : nat) :
  concat (map (fun i => take 100 (drop (100 * i) l)) (seq 0 n)) = take (100 * n) l.
Proof.
  induction n as [|n IH]; [done|].
  rewrite seq_S, map_app, concat_app, IH. simpl. rewrite app_nil_r.
  rewrite take_take_drop. f_equal. lia.
Qed.

(** X9 (StudentList pagination).  The pages of the buttons cut the filtered
    list into consecutive slices that concatenate back to it.  Each listed
    page holds between 1 and ITEMS_PER_PAGE rows, and a page beyond
    totalPages is empty. *)
Theorem pagination_pages {A} (l : list A) :
  let T := totalPages (length l) in
  concat (map (paginatedStudents l) (pageButtons T)) = l /\
  (forall p, In p (pageButtons T) ->
     (0 < length (paginatedStudents l p) <= 100)%nat) /\
  (forall p, T < p -> paginatedStudents l p = []).
Proof.
  intros T. pose proof (totalPages_bounds (length l)) as HT. fold T in HT.
  split; [|split].
  - unfold pageButtons. rewrite map_map.
    rewrite (map_ext_in _ (fun i => take 100 (drop (100 * i) l))).
    + rewrite concat_pages. apply take_ge. lia.
    + intros i _. rewrite paginatedStudents_page by lia. f_equal. f_equal. lia.
  - intros p Hp. unfold pageButtons in Hp. apply in_map_iff in Hp as (i & <- & Hi).
    apply in_seq in Hi.
    rewrite paginatedStudents_page by lia. rewrite length_take, length_drop. lia.
  - intros p Hp. rewrite paginatedStudents_page by lia.
    rewrite drop_ge by lia. apply take_nil.
Qed.

Lemma pick_some pq prefs u n :
  fst (pick pq prefs u) = Some n -> is_Some (pq !! n).
Proof.
  revert u; induction prefs as [|m rest IH]; intros u; simpl; [done|].
  destruct (pq !! m) as [q|] eqn:Hq; [|apply IH].
  destruct (u !! m) as [c|]; [|apply IH].
  destruct (c <? q); [|apply IH]. simpl. intros [= <-]. by exists q.
Qed.

Lemma rankStudents_qs_plan students plans r n :
  In r (rankStudents students plans) -> qualifiedStream r = Some n ->
  n ∈ map name plans.
Proof.
  intros Hr Hq. apply list_elem_of_In in Hr. apply list_elem_of_lookup_1 in Hr as (i & Hi).
  destruct (rankStudents_lookup _ _ _ _ Hi) as (r0 & _ & ->). simpl in Hq.
  apply pick_some in Hq as [q Hq].
  destruct (decide (n ∈ map name plans)) as [|Hn]; [done|].
  rewrite planQuotasOf_configured in Hq. apply lookup_delete_Some in Hq as [_ Hq].
  unfold configured_quotas in Hq. rewrite (fold_plans_notin quota) in Hq by done.
  by rewrite lookup_empty in Hq.
Qed.

Lemma planSheet_cons x l plans :
  sum_list (map (fun p => length (planSheet (x :: l) p)) plans) =
  (sum_list (map (fun p => length (planSheet l p)) plans) +
   length (List.filter (fun p => bool_decide (qualifiedStream x = Some (name p))) plans))%nat.
Proof.
  induction plans as [|p plans IH]; [done|]. simpl in *. rewrite IH. unfold planSheet. simpl.
  case_bool_decide; simpl; lia.
Qed.

Lemma count_plans_named plans n :
  NoDup (map name plans) ->
  length (List.filter (fun p => bool_decide (Some n = Some (name p))) plans) =
  (if bool_decide (n ∈ map name plans) then 1 else 0)%nat.
Proof.
  induction plans as [|p plans IH]; intros Hnd; [done|].
  simpl in Hnd. apply NoDup_cons in Hnd as [Hp Hnd]. cbn [List.filter map].
  destruct (decide (n = name p)) as [Heq|Hne].
  - rewrite bool_decide_eq_true_2 by congruence. cbn [length]. rewrite IH by done.
    rewrite Heq, (bool_decide_eq_false_2 _ Hp), bool_decide_eq_true_2 by set_solver. done.
  - rewrite bool_decide_eq_false_2 by congruence. rewrite IH by done.
    rewrite (bool_decide_ext (n ∈ name p :: map name plans) (n ∈ map name plans)); [done|set_solver].
Qed.

Lemma sum_list_app (l1 l2 : list nat) : sum_list (l1 ++ l2) = (sum_list l1 + sum_list l2)%nat.
Proof. induction l1; simpl; lia. Qed.

Lemma sheets_count l plans :
  NoDup (map name plans) ->
  (forall r, In r l -> qualifiedStream r = None \/
     exists n, qualifiedStream r = Some n /\ n ∈ map name plans /\ n <> "") ->
  (sum_list (map (fun p => length (planSheet l p)) plans) + length (waitingSheet l))%nat =
  length l.
Proof.
  intros Hnd. induction l as [|x l IH]; intros Hrow.
  - clear. simpl. induction plans; simpl; auto.
  - rewrite planSheet_cons. cbn [length]. rewrite <- IH by (intros r Hr; apply Hrow; by right).
    destruct (Hrow x (or_introl eq_refl)) as [Hq | (n & Hq & Hn & Hne')];
      unfold waitingSheet; cbn [List.filter]; rewrite Hq.
    + rewrite (List_filter_none _ plans); [simpl; lia|]. intros p _. apply bool_decide_eq_false_2. done.
    + rewrite count_plans_named, bool_decide_eq_true_2 by done.
      rewrite bool_decide_eq_false_2 by done. simpl. lia.
Qed.

(** The sheets on which [exportSheets] lays out the ranked rows. *)
Lemma exportSheets_rows_partition students plans :
  NoDup (map name plans) -> Forall (fun p => name p <> "") plans ->
  let rows := rankStudents students plans in
  sum_list (map length (tail (exportSheets rows plans))) = length rows /\
  (forall r, In r rows -> exists sh, In sh (tail (exportSheets rows plans)) /\ In r sh) /\
  (forall sh r, In sh (exportSheets rows plans) -> In r sh -> In r rows).
Proof.
  intros Hnd Hne rows.
  assert (Hrow : forall r, In r rows ->
            (qualifiedStream r = None \/
             exists n, qualifiedStream r = Some n /\ n ∈ map name plans /\ n <> "")).
  { intros r Hr. destruct (qualifiedStream r) as [n|] eqn:Hq; [right|by left].
    exists n. pose proof (rankStudents_qs_plan _ _ _ _ Hr Hq) as Hn. split; [done|split; [done|]].
    apply list_elem_of_In, in_map_iff in Hn as (p & <- & Hp). rewrite Forall_forall in Hne. apply Hne. by apply list_elem_of_In. }
  unfold exportSheets. simpl. split; [|split].
  - rewrite map_app, sum_list_app, map_map.
    assert (Hw : sum_list (map length (if bool_decide (0 < length (waitingSheet rows))%nat
                                       then [waitingSheet rows] else [])) =
                 length (waitingSheet rows)).
    { case_bool_decide; simpl; lia. }
    rewrite Hw. clear Hw. by apply sheets_count.
  - intros r Hr. destruct (Hrow r Hr) as [Hq | (n & Hq & Hn & _)].
    + exists (waitingSheet rows).
      assert (In r (waitingSheet rows)) by (unfold waitingSheet; apply filter_In; by rewrite Hq).
      split; [|done]. apply in_or_app. right. rewrite bool_decide_eq_true_2; [by left|].
      destruct (waitingSheet rows); [done|simpl; lia].
    + apply list_elem_of_In, in_map_iff in Hn as (p & Hp & Hpin).
      exists (planSheet rows p). split.
      * apply in_or_app. left. by apply in_map.
      * unfold planSheet. apply filter_In. split; [done|]. apply bool_decide_eq_true. congruence.
  - intros sh r [<- | Hsh]; [done|]. apply in_app_or in Hsh as [Hsh | Hsh].
    + apply in_map_iff in Hsh as (p & <- & _). unfold planSheet. intros Hr. apply filter_In in Hr. tauto.
    + case_bool_decide; [|done]. destruct Hsh as [<- | []]. unfold waitingSheet.
      intros Hr. apply filter_In in Hr. tauto.
Qed.

Lemma generateSheets_rows addWorksheet_ok added sheets out :
  generateSheets addWorksheet_ok added sheets = Some out -> out = map snd sheets.
Proof.
  revert added out; induction sheets as [|[t d] sheets IH]; intros added out; simpl.
  - by intros [= <-].
  - destruct (addWorksheet_ok added t); [|done].
    destruct (generateSheets addWorksheet_ok (added ++ [t]) sheets) as [o|] eqn:E; [|done].
    simpl. intros [= <-]. f_equal. by apply (IH (added ++ [t])).
Qed.

(** X10 (handleExport).  When the export goes through (ExcelJS accepts
    every sheet name) and plan names are distinct and nonempty, the sheets
    written are the list everybody, one per plan and the waiting sheet when
    it is nonempty; the plan sheets and the waiting sheet together hold
    each ranked row exactly once: their sizes add up to the number of
    rows, every row is on one of them, and no sheet holds anything else. *)
Theorem exportSheets_partition safeSheetName allTitle waitingTitle addWorksheet_ok
    students plans out :
  NoDup (map name plans) -> Forall (fun p => name p <> "") plans ->
  handleExport safeSheetName allTitle waitingTitle addWorksheet_ok
    (rankStudents students plans) plans = Some out ->
  out = exportSheets (rankStudents students plans) plans /\
  sum_list (map length (tail out)) = length (rankStudents students plans) /\
  (forall r, In r (rankStudents students plans) -> exists sh, In sh (tail out) /\ In r sh) /\
  (forall sh r, In sh out -> In r sh -> In r (rankStudents students plans)).
Proof.
  intros Hnd Hne Hout. unfold handleExport in Hout.
  apply generateSheets_rows in Hout.
  assert (Hex : out = exportSheets (rankStudents students plans) plans).
  { rewrite Hout. unfold exportSheets. simpl. rewrite map_app, map_map. simpl.
    f_equal. f_equal. by case_bool_decide. }
  split; [done|]. rewrite Hex. apply (exportSheets_rows_partition students plans Hnd Hne).
Qed.

Lemma fold_subjects_lookup (g : string -> Z) subjects (m : gmap string Z) k :
  fold_left (fun m subj => <[subj_id subj := g (subj_id subj)]> m) subjects m !! k =
  if bool_decide (k ∈ map subj_id subjects) then Some (g k) else m !! k.
Proof.
  revert m; induction subjects as [|sb rest IH]; intros m; simpl; [done|].
  rewrite IH. destruct (decide (k = subj_id sb)) as [->|Hne].
  - rewrite lookup_insert_eq. repeat case_bool_decide; set_solver.
  - rewrite lookup_insert_ne by congruence.
    rewrite (bool_decide_ext (k ∈ subj_id sb :: map subj_id rest) (k ∈ map subj_id rest)); [done|].
    set_solver.
Qed.

(** X11 (handleConfirm, then rankStudents).  The student built by either
    form carries every score [rankStudents] reads exactly when the five
    default subject ids are all configured subjects; and no ranking places
    it in a track with an empty name, the empty choices being dropped. *)
Theorem formStudent_fields Number id0 title0 firstName0 lastName0 selectedStreams formScores subjects :
  (has_all_scores (formStudent Number id0 title0 firstName0 lastName0 selectedStreams formScores subjects) <->
   Forall (fun k => k ∈ map subj_id subjects) subject_keys) /\
  (forall students plans i r, rankStudents students plans !! i = Some r ->
     rs_base r = formStudent Number id0 title0 firstName0 lastName0 selectedStreams formScores subjects ->
     qualifiedStream r <> Some "").
Proof.
  split.
  - unfold has_all_scores. apply Forall_iff. intros k.
    unfold score, formStudent. simpl. rewrite fold_subjects_lookup, lookup_empty.
    case_bool_decide as Hk.
    + split; [intros _; exact Hk|intros _; by eexists].
    + split; [intros [? Hsome]; discriminate|intros H; by destruct Hk].
  - intros students plans i r Hi Hb Hq.
    pose proof (rankStudents_stream students plans i r Hi) as Hs.
    rewrite Hq in Hs. symmetry in Hs. unfold first_open_preference in Hs.
    apply find_some in Hs as [Hin _]. rewrite Hb in Hin.
    unfold formStudent in Hin. simpl in Hin. apply filter_In in Hin as [_ Hne].
    by rewrite bool_decide_eq_true_2 in Hne.
Qed.

Lemma formStudent_fields_witness :
  (has_all_scores (formStudent (fun _ => 7) "S" "" "" "" ["X"; ""] ∅
     (map (fun k => mkSubject k k 100) subject_keys)) <->
   Forall (fun k => k ∈ map subj_id (map (fun k => mkSubject k k 100) subject_keys)) subject_keys) /\
  (forall students plans i r, rankStudents students plans !! i = Some r ->
     rs_base r = formStudent (fun _ => 7) "S" "" "" "" ["X"; ""] ∅
                   (map (fun k => mkSubject k k 100) subject_keys) ->
     qualifiedStream r <> Some "").
Proof. apply (formStudent_fields (fun _ => 7) "S" "" "" "" ["X"; ""] ∅ (map (fun k => mkSubject k k 100) subject_keys)). Defined.

(** X12 (handleConfirm, then calculateTotal).  The total of a student
    built by a form is the sum of its five hard-coded subject scores when
    those five keys are all configured subjects, and NaN otherwise. *)
Theorem formStudent_total Number id0 title0 firstName0 lastName0 selectedStreams formScores subjects sel :
  calculateTotal (formStudent Number id0 title0 firstName0 lastName0 selectedStreams formScores subjects) sel =
  if forallb (fun k => bool_decide (k ∈ map subj_id subjects)) subject_keys
  then JN (form_score Number formScores "math" + form_score Number formScores "science" +
           form_score Number formScores "thai" + form_score Number formScores "english" +
           form_score Number formScores "social")
  else JNaN.
Proof.
  unfold calculateTotal, score, formStudent. simpl. rewrite !fold_subjects_lookup, !lookup_empty.
  unfold subject_keys. simpl.
  repeat case_bool_decide; reflexivity.
Qed.

Lemma handleAddStudents_rows_witness :
  NoDup (map id [s1; s2]) /\
  take 2 (handleAddStudents false [s1; s2] [s2; tA]) = map (override [s2; tA]) [s1; s2].
Proof.
  assert (H : NoDup (map id [s1; s2])) by (vm_compute; repeat constructor; set_solver).
  split; [done|]. apply (handleAddStudents_rows [s1; s2] [s2; tA] H).
Defined.

Lemma handleAddStudents_ranked_once_witness :
  NoDup (map id [s1; s2]) /\ In tA [s2; tA; tA] /\
  exists t', last_by_id [s2; tA; tA] (id tA) = Some t' /\
    map rs_base (List.filter (fun r => bool_decide (id (rs_base r) = id tA))
                   (rankStudents (handleAddStudents false [s1; s2] [s2; tA; tA]) [planX1])) = [t'].
Proof.
  assert (H : NoDup (map id [s1; s2])) by (vm_compute; repeat constructor; set_solver).
  assert (Ht : In tA [s2; tA; tA]) by (simpl; tauto).
  split; [done|split; [done|]]. apply (handleAddStudents_ranked_once _ _ _ _ H Ht).
Defined.

Lemma handleEditStudent_unique_ids_witness :
  NoDup (map id [s1; s2]) /\ In (or_id (Some "S1") (id tA)) (map id [s1; s2]) /\
  NoDup (map id (handleEditStudent false [s1; s2] tA (Some "S1"))).
Proof.
  assert (H : NoDup (map id [s1; s2])) by (vm_compute; repeat constructor; set_solver).
  assert (Hk : In (or_id (Some "S1") (id tA)) (map id [s1; s2])) by (vm_compute; tauto).
  split; [done|split; [done|]].
  apply (handleEditStudent_unique_ids [s1; s2] tA (Some "S1") H Hk).
  vm_compute. intros [Hc | []]. discriminate.
Defined.

Lemma handleDeleteStudent_ranking_witness :
  Forall has_all_scores [s1; s2; sZ] /\
  map rs_base (rankStudents (handleDeleteStudent false [s1; s2; sZ] "S1") [planX1]) =
    List.filter (fun s => negb (bool_decide (id s = "S1")))
      (map rs_base (rankStudents [s1; s2; sZ] [planX1])).
Proof.
  assert (H : Forall has_all_scores [s1; s2; sZ]) by (repeat constructor; all_scores).
  split; [done|]. apply (handleDeleteStudent_ranking [s1; s2; sZ] [planX1] "S1" H).
Defined.

Lemma filteredStudents_stream_rows_witness :
  (fun x : string => x) "" = "" /\ "X" <> "ALL" /\
  Forall (fun r => qualifiedStream r = Some "X")
    (filteredStudents (fun x => x) (rankStudents [s1; s2] [planX1]) "X" "ALL" "" "math" "DESC").
Proof.
  assert (H1 : (fun x : string => x) "" = "") by reflexivity.
  assert (H2 : "X" <> "ALL") by discriminate.
  split; [done|split; [done|]].
  apply (filteredStudents_stream_rows (fun x => x) [s1; s2] [planX1] "X" "math" "DESC" H1 H2).
Defined.

Lemma filteredStudents_subject_sort_witness :
  "math" <> "TOTAL" /\
  Permutation (filteredStudents (fun x => x) (rankStudents [s1; s2] [planX1]) "ALL" "ALL" "" "math" "ASC")
    (List.filter (matchesRow (fun x => x) "ALL" "ALL" "") (rankStudents [s1; s2] [planX1])).
Proof.
  assert (H : "math" <> "TOTAL") by discriminate.
  split; [done|].
  apply (filteredStudents_subject_sort (fun x => x) [s1; s2] [planX1] "ALL" "ALL" "" "math" "ASC" H).
Defined.

Lemma exportSheets_partition_witness :
  (NoDup (map name [planX1; planY0]) /\ Forall (fun p => name p <> "") [planX1; planY0] /\
   handleExport name "All" "Waiting" (fun added t => negb (bool_decide (t ∈ added)))
     (rankStudents [s1; s2; sZ] [planX1; planY0]) [planX1; planY0] =
   Some (exportSheets (rankStudents [s1; s2; sZ] [planX1; planY0]) [planX1; planY0])) /\
  sum_list (map length (tail (exportSheets (rankStudents [s1; s2; sZ] [planX1; planY0])
                                           [planX1; planY0]))) =
    length (rankStudents [s1; s2; sZ] [planX1; planY0]).
Proof.
  assert (H1 : NoDup (map name [planX1; planY0])) by (vm_compute; repeat constructor; set_solver).
  assert (H2 : Forall (fun p => name p <> "") [planX1; planY0])
    by (repeat constructor; vm_compute; discriminate).
  assert (H3 : handleExport name "All" "Waiting" (fun added t => negb (bool_decide (t ∈ added)))
     (rankStudents [s1; s2; sZ] [planX1; planY0]) [planX1; planY0] =
   Some (exportSheets (rankStudents [s1; s2; sZ] [planX1; planY0]) [planX1; planY0]))
    by (vm_compute; reflexivity).
  split; [done|].
  apply (exportSheets_partition name "All" "Waiting" (fun added t => negb (bool_decide (t ∈ added)))
           [s1; s2; sZ] [planX1; planY0] _ H1 H2 H3).
Defined.
